(** * Wine-Project: the background-job coordinator of [app.py]

    [app.py] is a Flask front-end that runs one model-training job in the
    background and reports on it.  The shared state is the attribute
    [app.future] (the "slot"), guarded by [app.future_lock]; jobs run on a
    [ThreadPoolExecutor(max_workers=1)].

    The request handlers are embedded as programs over the operations they
    perform on the shared [app] object.  Each operation is atomic in Python
    (an attribute read or write, or a method of [threading.Lock],
    [concurrent.futures.Future] or the executor, which take their own
    internal locks), so a program is a tree of such operations and the
    concurrent behaviour of the server is every interleaving of the steps
    of the request threads with the steps of the executor's worker
    thread. *)

From stdpp Require Import base option list strings.

(** ** Data model *)

(** A [concurrent.futures.Future] object is referred to by its position in
    the heap of futures. *)
Abbreviation handle := nat.

(** What a call produced: a value, or an exception (an instance of
    [Exception]) whose [str()] is [m].  The Trainable is opaque; its value
    is taken to be a string, as [model.run_model] returns one. *)
Inductive outcome :=
| Returned (r : string)
| Raised (m : string).

(** The states of a [Future].  Nothing in [app.py] calls [cancel()], so the
    two cancelled states of the library are left out. *)
Inductive Future :=
| PENDING
| RUNNING
| FINISHED (o : outcome).

(** [app.model]: the imported module, or [None] when the import failed
    (lines 30-35).  Of a module only the presence of [run_model] matters. *)
Inductive model_ref :=
| NoModule
| Module (has_run_model : bool).

Inductive level := INFO | ERROR.

Inductive exn :=
| UnboundLocalError (name : string)
| AttributeError (msg : string)
| RuntimeError (msg : string)
| InvalidStateError.

(** The [app] object as the closures of [create_app] see it, together with
    the heap of futures and the state of the executor. *)
Record App := mkApp {
  model : model_ref;              (* app.model *)
  future : option handle;         (* app.future *)
  future_lock : bool;             (* app.future_lock, [true] when held *)
  futures : list Future;          (* the Future objects created so far *)
  queue : list handle;            (* app.executor: submitted, not yet started *)
  worker : option handle;         (* app.executor: the job its one thread runs *)
  log : list (level * string)     (* records written through app.logger *)
}.

Definition set_future (v : option handle) (s : App) : App :=
  mkApp (model s) v (future_lock s) (futures s) (queue s) (worker s) (log s).
Definition set_lock (b : bool) (s : App) : App :=
  mkApp (model s) (future s) b (futures s) (queue s) (worker s) (log s).
Definition set_futures (fs : list Future) (s : App) : App :=
  mkApp (model s) (future s) (future_lock s) fs (queue s) (worker s) (log s).
Definition set_queue (q : list handle) (s : App) : App :=
  mkApp (model s) (future s) (future_lock s) (futures s) q (worker s) (log s).
Definition set_worker (w : option handle) (s : App) : App :=
  mkApp (model s) (future s) (future_lock s) (futures s) (queue s) w (log s).
Definition add_log (l : level) (msg : string) (s : App) : App :=
  mkApp (model s) (future s) (future_lock s) (futures s) (queue s) (worker s)
        (log s ++ [(l, msg)]).

(** The state of the future behind a handle.  Handles are object
    references, so they always denote an allocated future; an index past
    the heap reads as a future nobody has touched. *)
Definition fget (fs : list Future) (h : handle) : Future :=
  default PENDING (fs !! h).
Definition fstate (s : App) (h : handle) : Future :=
  fget (futures s) h.
Arguments fget : simpl never.

Definition is_running (f : Future) : bool :=
  match f with RUNNING => true | _ => false end.
Definition is_done (f : Future) : bool :=
  match f with FINISHED _ => true | _ => false end.

(** ** Operations on the shared state *)

Inductive action :=
| Acquire                              (* app.future_lock.__enter__ *)
| Release                              (* app.future_lock.__exit__ *)
| GetFuture                            (* read app.future *)
| SetFuture (v : option handle)        (* app.future = v *)
| GetModel                             (* read app.model *)
| LogInfo (msg : string)               (* app.logger.info(msg) *)
| ExecutorSubmit                       (* app.executor.submit(_wrap) *)
| NewFuture                            (* concurrent.futures.Future() *)
| SetResult (h : handle) (r : string)  (* h.set_result(r) *)
| IsRunning (h : handle)               (* h.running() *)
| IsDone (h : handle)                  (* h.done() *)
| GetResult (h : handle).              (* h.result(), the exception as data *)

Definition reply (a : action) : Type :=
  match a with
  | Acquire | Release | SetFuture _ | LogInfo _ | SetResult _ _ => unit
  | GetFuture => option handle
  | GetModel => model_ref
  | ExecutorSubmit | NewFuture => handle
  | IsRunning _ | IsDone _ => bool
  | GetResult _ => outcome
  end.

Inductive effect (X : Type) :=
| Blocks                       (* the caller waits *)
| Throws (e : exn)             (* the operation raises *)
| Yields (x : X) (s : App).    (* it returns [x], leaving state [s] *)
Arguments Blocks {X}.
Arguments Throws {X} e.
Arguments Yields {X} x s.

Definition perform (a : action) (s : App) : effect (reply a) :=
  match a return effect (reply a) with
  | Acquire =>
      if future_lock s then Blocks else Yields () (set_lock true s)
  | Release =>
      if future_lock s then Yields () (set_lock false s)
      else Throws (RuntimeError "release unlocked lock")
  | GetFuture => Yields (future s) s
  | SetFuture v => Yields () (set_future v s)
  | GetModel => Yields (model s) s
  | LogInfo msg => Yields () (add_log INFO msg s)
  | ExecutorSubmit =>
      let h := length (futures s) in
      Yields h (set_queue (queue s ++ [h]) (set_futures (futures s ++ [PENDING]) s))
  | NewFuture =>
      Yields (length (futures s)) (set_futures (futures s ++ [PENDING]) s)
  | SetResult h r =>
      match fstate s h with
      | FINISHED _ => Throws InvalidStateError
      | _ => Yields () (set_futures (<[h := FINISHED (Returned r)]> (futures s)) s)
      end
  | IsRunning h => Yields (is_running (fstate s h)) s
  | IsDone h => Yields (is_done (fstate s h)) s
  | GetResult h =>
      match fstate s h with
      | FINISHED o => Yields o s
      | _ => Blocks
      end
  end.

(** ** Programs *)

Inductive prog (A : Type) : Type :=
| Ret (x : A)
| Raise (e : exn)
| Do (a : action) (k : reply a → prog A).
Arguments Ret {A} x.
Arguments Raise {A} e.
Arguments Do {A} a k.

Fixpoint bind {A B} (f : A → prog B) (p : prog A) : prog B :=
  match p with
  | Ret x => f x
  | Raise e => Raise e
  | Do a k => Do a (λ x, bind f (k x))
  end.

#[export] Instance prog_ret : MRet prog := @Ret.
#[export] Instance prog_bind : MBind prog := @bind.

Definition act (a : action) : prog (reply a) := Do a Ret.

(** [try: p finally: fin]. *)
Fixpoint finally {A} (p : prog A) (fin : prog unit) : prog A :=
  match p with
  | Ret x => fin ;; Ret x
  | Raise e => fin ;; Raise e
  | Do a k => Do a (λ x, finally (k x) fin)
  end.

(** [with app.future_lock: body]. *)
Definition with_lock {A} (body : prog A) : prog A :=
  act Acquire ;; finally body (act Release).

(** ** Running programs *)

Record event := Ev { ev_action : action; ev_reply : reply ev_action }.

Inductive completion (A : Type) :=
| Returns (x : A)
| Raises (e : exn)
| Hangs.
Arguments Returns {A} x.
Arguments Raises {A} e.
Arguments Hangs {A}.

(** One request served from start to end with nothing else running. *)
Fixpoint call {A} (p : prog A) (s : App) : completion A * App * list event :=
  match p with
  | Ret x => (Returns x, s, [])
  | Raise e => (Raises e, s, [])
  | Do a k =>
      match perform a s with
      | Blocks => (Hangs, s, [])
      | Throws e => (Raises e, s, [])
      | Yields x s' =>
          let '(c, s'', tr) := call (k x) s' in (c, s'', Ev a x :: tr)
      end
  end.

(** One step of a thread; a finished or blocked thread does not move. *)
Definition step {A} (p : prog A) (s : App) : prog A * App * list event :=
  match p with
  | Do a k =>
      match perform a s with
      | Blocks => (p, s, [])
      | Throws e => (Raise e, s, [])
      | Yields x s' => (k x, s', [Ev a x])
      end
  | _ => (p, s, [])
  end.

(** ** The executor's worker thread *)

(** [_wrap] (lines 54-61), given what [app.model.run_model()] did. *)
Definition _wrap (run_model : outcome) (s : App) : outcome * App :=
  match run_model with
  | Returned result =>
      (Returned result, add_log INFO ("Model run finished: " +:+ result) s)
  | Raised e =>
      (Raised e, add_log ERROR "Model run failed" s)
  end.

(** The worker takes the oldest queued job and marks its future RUNNING
    ([set_running_or_notify_cancel]). *)
Definition worker_start (s : App) : App :=
  match worker s, queue s with
  | None, h :: q =>
      match fstate s h with
      | PENDING =>
          set_worker (Some h) (set_queue q (set_futures (<[h := RUNNING]> (futures s)) s))
      | _ => s
      end
  | _, _ => s
  end.

(** The job ends: [_wrap] returns or raises and the worker stores that in
    the future ([set_result] / [set_exception]), then is free again. *)
Definition worker_finish (run_model : outcome) (s : App) : App :=
  match worker s with
  | Some h =>
      match fstate s h with
      | RUNNING =>
          let '(o, s1) := _wrap run_model s in
          set_worker None (set_futures (<[h := FINISHED o]> (futures s1)) s1)
      | _ => s
      end
  | None => s
  end.

(** ** The handlers of [create_app] *)

Definition truthy (m : model_ref) : bool :=
  match m with NoModule => false | Module _ => true end.
Definition hasattr_run_model (m : model_ref) : bool :=
  match m with NoModule => false | Module b => b end.

(** Lines 49-68. *)
Definition _submit_model : prog (option handle) :=
  with_lock (
    f ← act GetFuture;
    stale ← match f with
            | None => Ret true
            | Some _ =>
                f' ← act GetFuture;
                match f' with
                | None => Raise (AttributeError "'NoneType' object has no attribute 'done'")
                | Some h => act (IsDone h)
                end
            end;
    if stale : bool then
      m ← act GetModel;
      if truthy m && hasattr_run_model m then
        act (LogInfo "Submitting background model run") ;;
        h ← act ExecutorSubmit;
        act (SetFuture (Some h))
      else
        f ← act NewFuture;
        act (SetResult f "No model available") ;;
        act (SetFuture (Some f))
    else Ret ()) ;;
  act GetFuture.

Record payload := Payload { state : string; result : option string }.

Inductive response :=
| Page (output : string)      (* render_template('index.html', output=output) *)
| Text (body : string)        (* Response(body, mimetype='text/plain') *)
| Json (p : payload).         (* Response(json.dumps(p), mimetype='application/json') *)

(** Lines 73-85: what [home] does with the future it got on line 72. *)
Definition home_view (fut : option handle) : prog response :=
  match fut with
  | None => Raise (AttributeError "'NoneType' object has no attribute 'running'")
  | Some fut =>
      running ← act (IsRunning fut);
      output ←
        (if running : bool then
           Ret "Model is running (background). Refresh to see result."
         else
           done ← act (IsDone fut);
           if done : bool then
             o ← act (GetResult fut);
             let output := match o with
                           | Returned r => r
                           | Raised e => "Model error: " +:+ e
                           end in
             with_lock (act (SetFuture None)) ;;
             Ret output
           else
             Ret "Model started (background). Refresh to see result.");
      Ret (Page output)
  end.

(** Lines 70-85. *)
Definition home : prog response :=
  fut ← _submit_model;
  home_view fut.

(** Lines 87-89. *)
Definition ping : prog response := Ret (Text "ok").

(** Lines 91-111. *)
Definition status : prog response :=
  p ← with_lock (
    fut ← act GetFuture;
    match fut with
    | None => Ret ("idle", None)
    | Some fut =>
        running ← act (IsRunning fut);
        if running : bool then Ret ("running", None)
        else
          done ← act (IsDone fut);
          if done : bool then
            o ← act (GetResult fut);
            Ret ("done", Some match o with
                              | Returned r => r
                              | Raised e => "error: " +:+ e
                              end)
          else Ret ("unknown", None)
    end);
  Ret (Json (Payload p.1 p.2)).

(** ** The server: request threads and the worker, interleaved *)

(** A schedule names, tick by tick, who moves: request thread [i], or the
    worker taking a job, or the worker's job ending with what
    [run_model()] did. *)
Inductive tick :=
| Req (i : nat)
| WorkerStart
| WorkerFinish (run_model : outcome).

Definition config : Type := App * list (prog response).

Definition tick_exec (t : tick) (c : config) : config * list event :=
  match t with
  | Req i =>
      match c.2 !! i with
      | Some p => let '(p', s', ev) := step p c.1 in ((s', <[i := p']> c.2), ev)
      | None => (c, [])
      end
  | WorkerStart => ((worker_start c.1, c.2), [])
  | WorkerFinish o => ((worker_finish o c.1, c.2), [])
  end.

Fixpoint exec (sched : list tick) (c : config) : config * list event :=
  match sched with
  | [] => (c, [])
  | t :: sched' =>
      let '(c1, tr1) := tick_exec t c in
      let '(c2, tr2) := exec sched' c1 in
      (c2, tr1 ++ tr2)
  end.

(** ** [create_app] *)

(** The [app] object as lines 24-47 set it up. *)
Definition Flask (m : model_ref) : App :=
  mkApp m None false [] [] None [].

(** Reading a local variable of a function: a name that is assigned
    somewhere in the body is local throughout, and reading it before the
    assignment raises. *)
Definition load_local {A} (name : string) (v : option A) : exn + A :=
  match v with
  | Some x => inr x
  | None => inl (UnboundLocalError name)
  end.

(** Lines 10-113.  [config] is the argument; [import_model] is what
    [import model] gives in the process ([NoModule] when it raises).  [app]
    is assigned on line 24, so it is a local of [create_app], unbound while
    line 12 evaluates the decorator expression [app.errorhandler]. *)
Definition create_app (config : option (list (string * string)))
    (import_model : model_ref) : exn + App :=
  let app : option App := None in
  match load_local "app" app with                 (* line 12 *)
  | inl e => inl e
  | inr _ =>
      let app := Flask import_model in            (* lines 24-47 *)
      inr app                                     (* line 113 *)
  end.

(** Line 117: [app = create_app()]. *)
Definition module_app (import_model : model_ref) : exn + App :=
  create_app None import_model.

(** ** Observing executions *)

(** [n] requests to one handler, served one after the other. *)
Fixpoint serve {A} (p : prog A) (n : nat) (s : App)
    : list (completion A) * App * list event :=
  match n with
  | 0 => ([], s, [])
  | S n' =>
      let '(r, s1, tr1) := call p s in
      let '(rs, s2, tr2) := serve p n' s1 in
      (r :: rs, s2, (tr1 ++ tr2)%list)
  end.

(** The handlers routed by [create_app]. *)
Definition is_handler (p : prog response) : Prop :=
  p = home ∨ p = status ∨ p = ping.

(** A request that has not started, or a [GET /] that has its future and
    is about to look at it (line 73). *)
Definition in_service (p : prog response) : Prop :=
  is_handler p ∨ ∃ fut, p = home_view fut.

(** A request that has not started, or a [GET /] that got [h] from
    [_submit_model] and is about to look at it. *)
Definition awaits (h : handle) (p : prog response) : Prop :=
  is_handler p ∨ p = home_view (Some h).

(** The states the server goes through when it serves its requests one
    after the other, the worker moving in between; [m] is what
    [import model] gave. *)
Inductive served (m : model_ref) : App → Prop :=
| served_start : served m (Flask m)
| served_request p s : served m s → is_handler p → served m (call p s).1.2
| served_worker_start s : served m s → served m (worker_start s)
| served_worker_finish r s : served m s → served m (worker_finish r s).

(** The operations that change something other than the lock. *)
Definition writes (a : action) : bool :=
  match a with
  | SetFuture _ | LogInfo _ | ExecutorSubmit | NewFuture | SetResult _ _ => true
  | _ => false
  end.

Definition reads_only (a : action) : bool := negb (writes a).

(** [s'] is [s] but for the lock. *)
Definition same_but_lock (s s' : App) : Prop :=
  s' = set_lock (future_lock s') s.

(** The handles an execution handed to the executor, in order. *)
Definition dispatched (tr : list event) : list handle :=
  omap (λ e, match e with
             | Ev a x =>
                 match a return reply a → option handle with
                 | ExecutorSubmit => λ h, Some h
                 | _ => λ _, None
                 end x
             end) tr.

(** A future that was created and has not completed. *)
Definition in_flight (s : App) (h : handle) : Prop :=
  h < length (futures s) ∧ is_done (fstate s h) = false.

(** Whether [app.model] offers a Trainable (the test on line 52). *)
Definition has_trainable (s : App) : bool :=
  truthy (model s) && hasattr_run_model (model s).

(** The text [home] shows for a completed future (lines 76-79). *)
Definition home_output (o : outcome) : string :=
  match o with
  | Returned r => r
  | Raised e => "Model error: " +:+ e
  end.

(** With no Trainable there is never a job: the executor is empty and
    idle, and a future in the slot is one that [_submit_model] completed
    itself. *)
Definition idle_without_model (s : App) : Prop :=
  future_lock s = false ∧ has_trainable s = false ∧
  queue s = [] ∧ worker s = None ∧
  ∀ h, future s = Some h → fstate s h = FINISHED (Returned "No model available").

(** The executor has one thread: a future that is RUNNING is the job that
    thread is running. *)
Definition one_running (s : App) : Prop :=
  ∀ h, fstate s h = RUNNING → worker s = Some h.

(** ** What a thread may do and what it may be told *)

(** [respects allowed possible p]: along every path of [p] on which each
    reply is one that [possible] admits, [p] performs only operations that
    [allowed] admits. *)
Section Respects.
Context (allowed : action → bool) (possible : ∀ a, reply a → Prop).

Inductive respects {A} : prog A → Prop :=
| respects_ret x : respects (Ret x)
| respects_raise e : respects (Raise e)
| respects_do a k :
    allowed a = true →
    (∀ x, possible a x → respects (k x)) →
    respects (Do a k).
End Respects.

(** A thread that only reads and takes or releases the lock, whatever it
    is told. *)
Definition read_only {A} : prog A → Prop :=
  respects reads_only (λ _ _, True).

(** The replies a thread can get while the slot holds [h] and the future
    behind [h] has not completed. *)
Definition while_active (h : handle) (a : action) : reply a → Prop :=
  match a return reply a → Prop with
  | GetFuture => λ x, x = Some h
  | IsDone h' => λ x, h' = h → x = false
  | GetResult h' => λ _, h' ≠ h
  | _ => λ _, True
  end.

(** While the slot holds [h] and [h] has not completed, a thread that is
    [quiet h] only reads and takes or releases the lock. *)
Definition quiet (h : handle) {A} : prog A → Prop :=
  respects reads_only (while_active h).

(** Never storing [h] in the slot: what is allowed, and what a thread can
    be told while the slot does not hold [h] and [h] is already
    allocated. *)
Definition stores_other (h : handle) (a : action) : bool :=
  match a with
  | SetFuture (Some h') => bool_decide (h' ≠ h)
  | _ => true
  end.

Definition while_retired (h : handle) (a : action) : reply a → Prop :=
  match a return reply a → Prop with
  | GetFuture => λ x, x ≠ Some h
  | ExecutorSubmit | NewFuture => λ x, x ≠ h
  | _ => λ _, True
  end.

Definition retired (h : handle) (s : App) : Prop :=
  future s ≠ Some h ∧ h < length (futures s).

(** Not handing anything to the executor: what is allowed, and what a
    thread can be told about [app.model] when there is no Trainable. *)
Definition keeps_off_executor (a : action) : bool :=
  match a with ExecutorSubmit => false | _ => true end.

Definition without_trainable (a : action) : reply a → Prop :=
  match a return reply a → Prop with
  | GetModel => λ x, truthy x && hasattr_run_model x = false
  | _ => λ _, True
  end.

Definition executor_unused (s : App) : Prop :=
  has_trainable s = false ∧ queue s = [] ∧ worker s = None.

(** ** Scenarios *)

(** A first job, started by a [GET /], that the worker is running. *)
Definition first_job_running : App :=
  worker_start (call home (Flask (Module true))).1.2.

(** The state in which a first job, started by a [GET /], has completed
    with result [r] and nobody has looked at it yet. *)
Definition first_job_completed (r : string) : App :=
  worker_finish (Returned r) first_job_running.

(** Two [GET /] and a [GET /status] taking turns, step by step. *)
Definition busy_polling : list tick :=
  concat (replicate 12 [Req 0; Req 1; Req 2]).

(** A [GET /] during which the job in the slot ends: [_submit_model]
    (six steps on an active slot), the end of the job, lines 73-85. *)
Definition job_ends_during_home (run_model : outcome) : list tick :=
  replicate 6 (Req 0) ++ [WorkerFinish run_model] ++ replicate 6 (Req 0).

(** Two [GET /] that both get the running job's handle from
    [_submit_model]; the job ends; both go on to lines 73-85. *)
Definition both_hold_the_job : list tick :=
  replicate 6 (Req 0) ++ replicate 6 (Req 1) ++ [WorkerFinish (Returned "a")] ++
  replicate 6 (Req 0) ++ replicate 6 (Req 1).

(** Two [GET /] requests that overlap, and a third after them. *)
Definition three_homes : config := (Flask (Module true), [home; home; home]).

(** Request 0 starts job 0 and keeps its handle; the job completes with
    "a"; request 0 finds it completed (lines 73 and 75). *)
Definition first_inspects : list tick :=
  replicate 8 (Req 0) ++ [WorkerStart; WorkerFinish (Returned "a")] ++
  replicate 2 (Req 0).

(** Request 1 runs [_submit_model]: the slot holds a completed future, so
    it starts job 1 and stores its handle. *)
Definition second_submits : list tick := replicate 10 (Req 1).

(** Request 0 goes on: lines 77 to 85. *)
Definition first_clears : list tick := replicate 5 (Req 0).

(** Request 2 runs [_submit_model]. *)
Definition third_submits : list tick := replicate 8 (Req 2).

(** ** More definitions for the handlers *)

(** The two pages [home] shows for a job that has not completed. *)
Definition progress_page (f : Future) : response :=
  Page (if is_running f
        then "Model is running (background). Refresh to see result."
        else "Model started (background). Refresh to see result.").

(** The slot holds no job in progress: it is empty or its future is
    completed (the test on line 51). *)
Definition stale (s : App) : Prop :=
  ∀ h, future s = Some h → is_done (fstate s h) = true.

(** The text [status] gives as the result of a completed future
    (lines 103-106). *)
Definition status_result (o : outcome) : string :=
  match o with
  | Returned r => r
  | Raised e => "error: " +:+ e
  end.

(** Two [GET /] on a running job: request 0 gets the handle; request 1
    runs the locked part of [_submit_model] (five steps) and stops before
    line 68; the job ends; request 0 goes through lines 73-85 and empties
    the slot; request 1 then reads [app.future] on line 68. *)
Definition read_after_clear (run_model : outcome) : list tick :=
  replicate 6 (Req 0) ++ replicate 5 (Req 1) ++ [WorkerFinish run_model] ++
  replicate 6 (Req 0) ++ [Req 1].

(** ** The lock *)

(** Where a thread is with respect to [app.future_lock]: outside, or
    inside a [with app.future_lock] block, knowing what the slot holds and
    which new future of its own it has not completed yet. *)
Inductive mode :=
| Outside
| Inside (slot : option handle) (own : option handle).

Definition observes (a : action) : bool :=
  match a with
  | GetFuture | IsRunning _ | IsDone _ | GetResult _ => true
  | _ => false
  end.

Definition neutral (a : action) : bool :=
  match a with
  | GetModel | LogInfo _ | ExecutorSubmit
  | IsRunning _ | IsDone _ | GetResult _ => true
  | _ => false
  end.

(** The one exception the handlers raise themselves that can be reached:
    line 73 on a [None] future. *)
Definition none_has_no_running : exn :=
  AttributeError "'NoneType' object has no attribute 'running'".

(** [disciplined m p]: from mode [m] on, [p] takes the lock only outside
    and releases it only inside, writes the slot and creates or completes
    futures only inside, completes only the future it has just created,
    and ends outside, returning or raising [none_has_no_running]; inside,
    every read of the slot is taken to give what the thread knows it
    holds. *)
Inductive disciplined {A} : mode → prog A → Prop :=
| disc_ret x : disciplined Outside (Ret x)
| disc_raise : disciplined Outside (Raise none_has_no_running)
| disc_acquire k :
    (∀ v, disciplined (Inside v None) (k ())) →
    disciplined Outside (Do Acquire k)
| disc_observe a k :
    observes a = true →
    (∀ x, disciplined Outside (k x)) →
    disciplined Outside (Do a k)
| disc_release v k :
    disciplined Outside (k ()) →
    disciplined (Inside v None) (Do Release k)
| disc_get_future v own k :
    disciplined (Inside v own) (k v) →
    disciplined (Inside v own) (Do GetFuture k)
| disc_set_future v own v' k :
    disciplined (Inside v' own) (k ()) →
    disciplined (Inside v own) (Do (SetFuture v') k)
| disc_new_future v k :
    (∀ x, disciplined (Inside v (Some x)) (k x)) →
    disciplined (Inside v None) (Do NewFuture k)
| disc_set_result v f r k :
    disciplined (Inside v None) (k ()) →
    disciplined (Inside v (Some f)) (Do (SetResult f r) k)
| disc_neutral v own a k :
    neutral a = true →
    (∀ x, disciplined (Inside v own) (k x)) →
    disciplined (Inside v own) (Do a k).

(** A thread has returned or raised. *)
Definition finished {A} (p : prog A) : Prop :=
  match p with Do _ _ => False | _ => True end.

(** The new future of the thread inside the lock is still untouched: it
    is pending and not with the executor. *)
Definition owned (s : App) (own : option handle) : Prop :=
  match own with
  | None => True
  | Some f => fstate s f = PENDING ∧ f < length (futures s) ∧ f ∉ queue s
  end.

Definition queue_allocated (s : App) : Prop :=
  Forall (λ h, h < length (futures s)) (queue s).

(** The lock is held exactly when one thread is inside; that thread knows
    what the slot holds. *)
Definition lock_inv (s : App) (ms : list mode) : Prop :=
  queue_allocated s ∧
  if future_lock s then
    ∃ i v own, ms !! i = Some (Inside v own) ∧
               (∀ j m, ms !! j = Some m → j ≠ i → m = Outside) ∧
               future s = v ∧ owned s own
  else Forall (λ m, m = Outside) ms.

(** ** The log *)



Fixpoint count {A} (p : A → bool) (l : list A) : nat :=
  match l with
  | [] => 0
  | x :: l' => (if p x then 1 else 0) + count p l'
  end.

(** ** Looking at a future *)

(** Operations on the future behind [h]. *)
Definition looks_at (h : handle) (a : action) : bool :=
  match a with
  | IsRunning h' | IsDone h' | GetResult h' | SetResult h' _ => bool_decide (h' = h)
  | _ => false
  end.

(** Neither storing [h] in the slot nor touching the future behind it. *)
Definition shuns (h : handle) (a : action) : bool :=
  stores_other h a && negb (looks_at h a).

(** Reading the outcome of [h]: [h.result()] on lines 77 and 104. *)
Definition reads_result (h : handle) (e : event) : bool :=
  match ev_action e with
  | GetResult h' => bool_decide (h' = h)
  | _ => false
  end.

(** How many times an execution read the outcome of [h]. *)
Definition consumed (h : handle) (tr : list event) : nat :=
  count (reads_result h) tr.

(** ** One request and the worker *)

(** What a request that overlaps no other request knows as it goes:
    what the slot holds, whether it holds the lock, the new future of
    its own it has not completed yet, how many futures exist, which
    futures it has seen completed, and what it has done so far. *)
Record view := View {
  v_slot : option handle;
  v_lock : bool;
  v_own : option handle;
  v_next : nat;
  v_done : list handle;
  v_trace : list event
}.

(** [alone md Q n v p]: with [app.model] being [md], a thread that runs
    [p] knowing [v], disturbed by nobody but the worker, never raises and
    is never made to wait; it returns after at most [n] steps of its own,
    and then [Q] holds of what it knows and of what it returns. *)
Inductive alone (md : model_ref) {A} (Q : view → A → Prop)
  : nat → view → prog A → Prop :=
| alone_ret n v x : Q v x → alone md Q n v (Ret x)
| alone_acquire n sl own nx dn tr k :
    alone md Q n (View sl true own nx dn (tr ++ [Ev Acquire ()])) (k ()) →
    alone md Q (S n) (View sl false own nx dn tr) (Do Acquire k)
| alone_release n sl own nx dn tr k :
    alone md Q n (View sl false own nx dn (tr ++ [Ev Release ()])) (k ()) →
    alone md Q (S n) (View sl true own nx dn tr) (Do Release k)
| alone_get_future n sl l own nx dn tr k :
    alone md Q n (View sl l own nx dn (tr ++ [Ev GetFuture sl])) (k sl) →
    alone md Q (S n) (View sl l own nx dn tr) (Do GetFuture k)
| alone_set_future n sl l own nx dn tr sl' k :
    alone md Q n (View sl' l own nx dn (tr ++ [Ev (SetFuture sl') ()])) (k ()) →
    alone md Q (S n) (View sl l own nx dn tr) (Do (SetFuture sl') k)
| alone_get_model n sl l own nx dn tr k :
    alone md Q n (View sl l own nx dn (tr ++ [Ev GetModel md])) (k md) →
    alone md Q (S n) (View sl l own nx dn tr) (Do GetModel k)
| alone_log n sl l own nx dn tr msg k :
    alone md Q n (View sl l own nx dn (tr ++ [Ev (LogInfo msg) ()])) (k ()) →
    alone md Q (S n) (View sl l own nx dn tr) (Do (LogInfo msg) k)
| alone_submit n sl l own nx dn tr k :
    alone md Q n (View sl l own (S nx) dn (tr ++ [Ev ExecutorSubmit nx])) (k nx) →
    alone md Q (S n) (View sl l own nx dn tr) (Do ExecutorSubmit k)
| alone_new_future n sl l nx dn tr k :
    alone md Q n (View sl l (Some nx) (S nx) dn (tr ++ [Ev NewFuture nx])) (k nx) →
    alone md Q (S n) (View sl l None nx dn tr) (Do NewFuture k)
| alone_set_result n sl l f nx dn tr r k :
    alone md Q n (View sl l None nx (f :: dn) (tr ++ [Ev (SetResult f r) ()])) (k ()) →
    alone md Q (S n) (View sl l (Some f) nx dn tr) (Do (SetResult f r) k)
| alone_is_running n sl l own nx dn tr h k :
    (∀ b, alone md Q n (View sl l own nx dn (tr ++ [Ev (IsRunning h) b])) (k b)) →
    alone md Q (S n) (View sl l own nx dn tr) (Do (IsRunning h) k)
| alone_is_done_known n sl l own nx dn tr h k :
    h ∈ dn →
    alone md Q n (View sl l own nx dn (tr ++ [Ev (IsDone h) true])) (k true) →
    alone md Q (S n) (View sl l own nx dn tr) (Do (IsDone h) k)
| alone_is_done n sl l own nx dn tr h k :
    alone md Q n (View sl l own nx (h :: dn) (tr ++ [Ev (IsDone h) true])) (k true) →
    alone md Q n (View sl l own nx dn (tr ++ [Ev (IsDone h) false])) (k false) →
    alone md Q (S n) (View sl l own nx dn tr) (Do (IsDone h) k)
| alone_get_result n sl l own nx dn tr h k :
    h ∈ dn →
    (∀ o, alone md Q n (View sl l own nx dn (tr ++ [Ev (GetResult h) o])) (k o)) →
    alone md Q (S n) (View sl l own nx dn tr) (Do (GetResult h) k).

(** What the thread knows is true of [app]. *)
Definition view_holds (md : model_ref) (v : view) (s : App) : Prop :=
  model s = md ∧ future s = v_slot v ∧ future_lock s = v_lock v ∧
  length (futures s) = v_next v ∧ owned s (v_own v) ∧ queue_allocated s ∧
  Forall (λ h, is_done (fstate s h) = true) (v_done v).

(** The steps a schedule gives to request 0. *)
Definition own_step (t : tick) : bool :=
  match t with Req 0 => true | _ => false end.

(** What is left to say of a lone [GET /] when it returns. *)
Definition returns_a_page (v : view) (r : response) : Prop :=
  v_lock v = false ∧ ∃ out, r = Page out.

(** A lone [GET /] that found the slot empty or stale, [old], with [nx]
    futures created so far: it has handed one job to the executor, the
    future [nx]; it has not read the outcome of the future the slot held;
    it leaves the job in the slot and shows a progress page, or has shown
    the outcome of a future and left the slot empty. *)
Definition started_one_job (old : option handle) (nx : nat)
    (v : view) (r : response) : Prop :=
  v_lock v = false ∧ v_next v = S nx ∧ dispatched (v_trace v) = [nx] ∧
  (∀ h, old = Some h → consumed h (v_trace v) = 0) ∧
  ((v_slot v = Some nx ∧
    (r = progress_page RUNNING ∨ r = progress_page PENDING)) ∨
   (v_slot v = None ∧ ∃ o, r = Page (home_output o))).

(** A [GET /] on an empty or stale slot during which its own job runs
    and ends: lines 50-63 (eight steps), the worker takes the job and
    finishes it, lines 63-85. *)
Definition job_runs_during_home (run_model : outcome) : list tick :=
  replicate 8 (Req 0) ++ [WorkerStart; WorkerFinish run_model] ++
  replicate 8 (Req 0).

(** ** The end of a job in two steps *)

(** The end of a job as the worker thread goes through it, in two
    steps.  First [_wrap] runs to its end (lines 55-61): the record is in
    the log, and what [_wrap] returned or raised is with the worker. *)
Definition wrap_ends (run_model : outcome) (s : App) : option outcome * App :=
  match worker s with
  | Some h =>
      match fstate s h with
      | RUNNING => let '(o, s1) := _wrap run_model s in (Some o, s1)
      | _ => (None, s)
      end
  | None => (None, s)
  end.

(** Then the executor stores that in the future ([set_result] /
    [set_exception]) and the worker is free again. *)
Definition outcome_stored (o : outcome) (s : App) : App :=
  match worker s with
  | Some h =>
      match fstate s h with
      | RUNNING => set_worker None (set_futures (<[h := FINISHED o]> (futures s)) s)
      | _ => s
      end
  | None => s
  end.

(** The states the server goes through between requests served one after
    the other, the end of a job taken in its two steps; the second
    component is what [_wrap] has produced and the executor has not
    stored yet. *)
Inductive served_between (m : model_ref) : App → option outcome → Prop :=
| between_start : served_between m (Flask m) None
| between_request p s w :
    served_between m s w → is_handler p → served_between m (call p s).1.2 w
| between_worker_start s w :
    served_between m s w → served_between m (worker_start s) w
| between_wrap_ends r s o s1 :
    served_between m s None → wrap_ends r s = (Some o, s1) →
    served_between m s1 (Some o)
| between_outcome_stored s o :
    served_between m s (Some o) → served_between m (outcome_stored o s) None.



(** ** Basic facts about the heap of futures *)

Lemma fget_alloc fs h : fget fs h ≠ PENDING → h < length fs.
Proof.
  unfold fget. intros H. destruct (fs !! h) eqn:E.
  - by eapply lookup_lt_Some.
  - by destruct H.
Qed.

Lemma fget_insert fs h h' x :
  fget (<[h' := x]> fs) h =
  if decide (h' = h ∧ h' < length fs) then x else fget fs h.
Proof. unfold fget. rewrite list_lookup_insert. by destruct (decide _). Qed.

Lemma fget_insert_ne fs h h' x : h' ≠ h → fget (<[h' := x]> fs) h = fget fs h.
Proof. intros. rewrite fget_insert. case_decide as E; [by destruct E|done]. Qed.

Lemma fget_insert_eq fs h x : h < length fs → fget (<[h := x]> fs) h = x.
Proof. intros. rewrite fget_insert. case_decide as E; [done|]. by destruct E. Qed.

Lemma fget_push fs h x :
  fget (fs ++ [x]) h = if decide (h = length fs) then x else fget fs h.
Proof.
  unfold fget. case_decide as E.
  - subst. by rewrite list_lookup_middle.
  - destruct (decide (h < length fs)).
    + by rewrite lookup_app_l.
    + rewrite !lookup_ge_None_2; [done| lia |]. rewrite length_app; simpl; lia.
Qed.

Lemma fget_push_new fs x : fget (fs ++ [x]) (length fs) = x.
Proof. rewrite fget_push. by case_decide. Qed.

Lemma fget_push_old fs h x : fget fs h ≠ PENDING → fget (fs ++ [x]) h = fget fs h.
Proof. intros H%fget_alloc. rewrite fget_push. case_decide; [lia|done]. Qed.

Lemma insert_push (fs : list Future) x y : <[length fs := y]> (fs ++ [x]) = fs ++ [y].
Proof.
  rewrite insert_app_r_alt by lia. by rewrite Nat.sub_diag.
Qed.

(** ** A completed future stays as it is *)

Section Finished.
Variables (h : handle) (o : outcome).

Lemma perform_finished a s x s' :
  perform a s = Yields x s' →
  fstate s h = FINISHED o → fstate s' h = FINISHED o.
Proof.
  unfold fstate. intros Hp Hf. destruct a; simpl in Hp;
    repeat case_match; simplify_eq; unfold fstate in *; simpl; try done.
  all: try (rewrite fget_push_old; congruence).
  all: rewrite fget_insert_ne; [done|]; intros ->; congruence.
Qed.

Lemma step_finished {A} (p : prog A) s :
  fstate s h = FINISHED o → fstate (step p s).1.2 h = FINISHED o.
Proof.
  intros Hf. destruct p as [| |a k]; simpl; try done.
  destruct (perform a s) eqn:E; simpl; try done.
  by eapply perform_finished.
Qed.

Lemma worker_start_finished s :
  fstate s h = FINISHED o → fstate (worker_start s) h = FINISHED o.
Proof.
  unfold worker_start; unfold fstate. intros Hf.
  destruct (worker s); [done|]. destruct (queue s) as [|h' q]; [done|].
  destruct (fget (futures s) h') eqn:E; try done. simpl.
  rewrite fget_insert_ne; [done|]. intros ->. congruence.
Qed.

Lemma worker_finish_finished r s :
  fstate s h = FINISHED o → fstate (worker_finish r s) h = FINISHED o.
Proof.
  unfold worker_finish; unfold fstate. intros Hf.
  destruct (worker s) as [h'|]; [|done].
  destruct (fget (futures s) h') eqn:E; try done.
  assert (h' ≠ h) by (intros ->; congruence).
  destruct r as [v|m]; simpl; by rewrite fget_insert_ne.
Qed.

Lemma tick_finished t (c : config) :
  fstate c.1 h = FINISHED o → fstate (tick_exec t c).1.1 h = FINISHED o.
Proof.
  intros Hf. destruct t as [i| |r]; simpl.
  - destruct (c.2 !! i) as [p|]; [|done].
    pose proof (step_finished p c.1 Hf) as Hs.
    by destruct (step p c.1) as [[p' s'] ev].
  - by apply worker_start_finished.
  - by apply worker_finish_finished.
Qed.

Lemma exec_finished sched (c : config) :
  fstate c.1 h = FINISHED o → fstate (exec sched c).1.1 h = FINISHED o.
Proof.
  revert c. induction sched as [|t sched IH]; intros c Hf; simpl; [done|].
  pose proof (tick_finished t c Hf) as Ht.
  destruct (tick_exec t c) as [c1 tr1]. specialize (IH c1 Ht).
  by destruct (exec sched c1) as [c2 tr2].
Qed.

Lemma call_finished {A} (p : prog A) s :
  fstate s h = FINISHED o → fstate (call p s).1.2 h = FINISHED o.
Proof.
  revert s. induction p as [| |a k IH]; intros s Hf; simpl; try done.
  destruct (perform a s) as [|e|x s'] eqn:E; simpl; try done.
  specialize (IH x s' (perform_finished _ _ _ _ E Hf)).
  by destruct (call (k x) s') as [[c s''] tr].
Qed.
End Finished.

(** ** Facts about running programs *)

Lemma exec_cons t sched (c : config) :
  exec (t :: sched) c =
  ((exec sched (tick_exec t c).1).1,
   ((tick_exec t c).2 ++ (exec sched (tick_exec t c).1).2)%list).
Proof.
  cbn [exec]. destruct (tick_exec t c) as [c1 tr1]; cbn [fst snd].
  by destruct (exec sched c1) as [c2 tr2].
Qed.

Lemma call_bind {A B} (p : prog A) (f : A → prog B) s :
  call (p ≫= f) s =
  match call p s with
  | (Returns x, s1, tr1) =>
      let '(c, s2, tr2) := call (f x) s1 in (c, s2, (tr1 ++ tr2)%list)
  | (Raises e, s1, tr1) => (Raises e, s1, tr1)
  | (Hangs, s1, tr1) => (Hangs, s1, tr1)
  end.
Proof.
  revert s. induction p as [x|e|a k IH]; intros s; cbn.
  - by destruct (call (f x) s) as [[c s2] tr2].
  - done.
  - destruct (perform a s) as [|e|x s1]; try done.
    change (bind f (k x)) with (k x ≫= f). rewrite IH.
    destruct (call (k x) s1) as [[[y| |] s2] tr1]; try done.
    by destruct (call (f y) s2) as [[c s3] tr2].
Qed.

(** Serving a request with nothing else running is one of the schedules:
    the one in which only that request moves. *)
Lemma call_exec (p : prog response) s r s' tr :
  call p s = (Returns r, s', tr) →
  ∃ n, exec (replicate n (Req 0)) (s, [p]) = ((s', [Ret r]), tr).
Proof.
  revert s tr. induction p as [x|e|a k IH]; intros s tr Hc; simpl in Hc.
  - exists 0. by simplify_eq.
  - done.
  - destruct (perform a s) as [|e|x s1] eqn:Ea; try done.
    destruct (call (k x) s1) as [[c s2] tr'] eqn:Ek. simplify_eq.
    destruct (IH x s1 tr' Ek) as [n Hn]. exists (S n).
    change (replicate (S n) (Req 0)) with (Req 0 :: replicate n (Req 0)).
    rewrite exec_cons. simpl. rewrite Ea. simpl. by rewrite Hn.
Qed.

(** ** Serving one request at a time *)

(** Runs a handler on a state whose fields are variables, using what is
    known of the futures it looks at. *)
Ltac run :=
  repeat (cbn; unfold fstate, has_trainable; cbn;
          repeat match goal with
                 | H : fget ?fs ?h = _ |- context [fget ?fs ?h] => rewrite H
                 | H : truthy ?m && hasattr_run_model ?m = _ |- _ => rewrite H
                 | |- context [fget (<[?h := _]> ?fs) ?h] =>
                     rewrite (fget_insert_eq fs h) by done
                 | |- context [fget (?fs ++ [_]) (length ?fs)] =>
                     rewrite fget_push_new
                 | |- context [<[length ?fs := _]> (?fs ++ [_])] =>
                     rewrite insert_push
                 end).

Lemma submit_on_stale_slot s :
  future_lock s = false →
  (∀ h, future s = Some h → is_done (fstate s h) = true) →
  let h' := length (futures s) in
  call _submit_model s =
    if has_trainable s then
      (Returns (Some h'),
       mkApp (model s) (Some h') false (futures s ++ [PENDING]) (queue s ++ [h'])
             (worker s) (log s ++ [(INFO, "Submitting background model run")]),
       [Ev Acquire ()] ++
       match future s with
       | Some h => [Ev GetFuture (Some h); Ev GetFuture (Some h); Ev (IsDone h) true]
       | None => [Ev GetFuture None]
       end ++
       [Ev GetModel (model s); Ev (LogInfo "Submitting background model run") ();
        Ev ExecutorSubmit h'; Ev (SetFuture (Some h')) (); Ev Release ();
        Ev GetFuture (Some h')])
    else
      (Returns (Some h'),
       mkApp (model s) (Some h') false
             (futures s ++ [FINISHED (Returned "No model available")]) (queue s)
             (worker s) (log s),
       [Ev Acquire ()] ++
       match future s with
       | Some h => [Ev GetFuture (Some h); Ev GetFuture (Some h); Ev (IsDone h) true]
       | None => [Ev GetFuture None]
       end ++
       [Ev GetModel (model s); Ev NewFuture h';
        Ev (SetResult h' "No model available") (); Ev (SetFuture (Some h')) ();
        Ev Release (); Ev GetFuture (Some h')]).
Proof.
  destruct s as [m f l fs q w lg]; unfold fstate; simpl; intros -> Hdone.
  destruct (truthy m && hasattr_run_model m) eqn:Hm;
    (destruct f as [h|]; [specialize (Hdone h eq_refl)|]); run; try done.
  all: destruct (fget fs h) eqn:Hh; try done; run; done.
Qed.

Lemma submit_on_active_slot s h :
  future_lock s = false → future s = Some h → is_done (fstate s h) = false →
  call _submit_model s =
    (Returns (Some h), s,
     [Ev Acquire (); Ev GetFuture (Some h); Ev GetFuture (Some h);
      Ev (IsDone h) false; Ev Release (); Ev GetFuture (Some h)]).
Proof.
  destruct s as [m f l fs q w lg]; unfold fstate; simpl; intros -> -> Hdone.
  run. by rewrite Hdone.
Qed.

Lemma status_call s :
  future_lock s = false →
  ∃ p tr, call status s = (Returns (Json p), s, tr) ∧
          Forall (λ e, writes (ev_action e) = false) tr ∧
          match future s with
          | None => p = Payload "idle" None
          | Some h =>
              match fstate s h with
              | PENDING => p = Payload "unknown" None
              | RUNNING => p = Payload "running" None
              | FINISHED (Returned r) => p = Payload "done" (Some r)
              | FINISHED (Raised m) => p = Payload "done" (Some ("error: " +:+ m))
              end
          end.
Proof.
  destruct s as [m f l fs q w lg]; simpl; intros ->.
  destruct f as [h|]; unfold fstate; simpl.
  - destruct (fget fs h) as [| |[r|e]] eqn:E; run;
      do 2 eexists; (split; [done|]); (split; [|done]);
      repeat constructor.
  - do 2 eexists; (split; [done|]); (split; [|done]); repeat constructor.
Qed.

Lemma home_view_completed s h o :
  future_lock s = false → fstate s h = FINISHED o →
  call (home_view (Some h)) s =
    (Returns (Page (home_output o)), set_future None s,
     [Ev (IsRunning h) false; Ev (IsDone h) true; Ev (GetResult h) o;
      Ev Acquire (); Ev (SetFuture None) (); Ev Release ()]).
Proof.
  destruct s as [m f l fs q w lg]; unfold fstate; simpl; intros -> Hf.
  run. by destruct o.
Qed.

Lemma append_nil_r (m : string) : m +:+ "" = m.
Proof.
  induction m as [|a m IH]; [done|].
  change (String a (m +:+ "") = String a m). by rewrite IH.
Qed.

Lemma home_when_job_ends s h o :
  future_lock s = false → future s = Some h → fstate s h = RUNNING →
  worker s = Some h →
  (exec (job_ends_during_home o) (s, [home])).1 =
  (set_future None (worker_finish o s), [Ret (Page (home_output o))]).
Proof.
  destruct s as [m f l fs q w lg]; unfold fstate; simpl. intros -> -> Hf ->.
  assert (h < length fs) as Hh by (apply fget_alloc; congruence).
  unfold job_ends_during_home, worker_finish, home_output.
  destruct o as [r|e]; run; done.
Qed.

(** *** Without a Trainable *)

Lemma served_without_model m s :
  served m s → truthy m && hasattr_run_model m = false → idle_without_model s.
Proof.
  intros Hs Hm. induction Hs as [|p s Hs IH Hp|s Hs IH|r s Hs IH].
  - by repeat split.
  - destruct IH as (Hl & Ht & Hq & Hw & Hf).
    destruct Hp as [->|[->| ->]]; [| |by repeat split].
    + unfold home. rewrite call_bind, submit_on_stale_slot; [|done|].
      2: { intros h Hh. by rewrite (Hf h Hh). }
      rewrite Ht. cbv iota beta.
      set (s1 := mkApp _ _ _ _ _ _ _).
      rewrite (home_view_completed s1 (length (futures s))
                 (Returned "No model available")); [|done|].
      2: { unfold fstate; simpl. apply fget_push_new. }
      simpl. by repeat split.
    + destruct (status_call s Hl) as (p & tr & -> & _). by repeat split.
  - destruct IH as (Hl & Ht & Hq & Hw & Hf).
    unfold worker_start. rewrite Hw, Hq. by repeat split.
  - destruct IH as (Hl & Ht & Hq & Hw & Hf).
    unfold worker_finish. rewrite Hw. by repeat split.
Qed.

(** ** Requests and the worker interleaved *)

Ltac told :=
  cbn in *;
  repeat match goal with
         | H : ?x = ?x → _ |- _ => specialize (H eq_refl)
         | H : truthy ?m && hasattr_run_model ?m = _ |- _ => rewrite H; clear H
         end;
  simplify_eq/=; try congruence.

(** Walks through a program, one operation at a time, along the replies it
    can be told. *)
Ltac explore_with tac :=
  repeat first
    [ apply respects_ret
    | apply respects_raise
    | apply respects_do; [tac|]; cbn; intros [] ?; told
    | apply respects_do; [tac|]; cbn; intros ? ?; told
    | match goal with
      | |- context [if ?b then _ else _] => is_var b; destruct b; cbn
      end ].

Ltac explore := explore_with ltac:(done).

(** *** Rely and guarantee *)

(** If every allowed operation, performed in a state satisfying [I], gets
    a possible reply and leaves a state satisfying [I], and the worker
    keeps [I], then threads that respect [allowed] and [possible] keep
    doing so under every schedule, [I] holds throughout, only allowed
    operations are ever performed and only possible replies given. *)
Section RelyGuarantee.
Context (allowed : action → bool) (possible : ∀ a, reply a → Prop).
Context (I : App → Prop).
Hypothesis perform_ok : ∀ s a x s',
  I s → allowed a = true → perform a s = Yields x s' → possible a x ∧ I s'.
Hypothesis worker_start_ok : ∀ s, I s → I (worker_start s).
Hypothesis worker_finish_ok : ∀ r s, I s → I (worker_finish r s).

Lemma respects_step {A} (p : prog A) s :
  respects allowed possible p → I s →
  respects allowed possible (step p s).1.1 ∧ I (step p s).1.2 ∧
  Forall (λ e, allowed (ev_action e) = true ∧
               possible (ev_action e) (ev_reply e)) (step p s).2.
Proof.
  intros Hp Hs. destruct Hp as [x|e|a k Ha Hk] eqn:E; simpl.
  1,2: by repeat split.
  destruct (perform a s) as [|e|x s'] eqn:Ea; simpl.
  - by repeat split.
  - repeat split; [apply respects_raise|done..].
  - destruct (perform_ok s a x s' Hs Ha Ea) as [Hx Hs'].
    repeat split; [by apply Hk|done|by repeat constructor].
Qed.

Lemma respects_tick t (c : config) :
  Forall (respects allowed possible) c.2 → I c.1 →
  Forall (respects allowed possible) (tick_exec t c).1.2 ∧ I (tick_exec t c).1.1 ∧
  Forall (λ e, allowed (ev_action e) = true ∧
               possible (ev_action e) (ev_reply e)) (tick_exec t c).2.
Proof.
  destruct c as [s ts]; simpl. intros Hts Hs. destruct t as [i| |r]; simpl.
  - destruct (ts !! i) as [p|] eqn:Hi; simpl; [|done].
    assert (respects allowed possible p) as Hp by (by eapply Forall_lookup_1).
    destruct (respects_step p s Hp Hs) as (Hp' & Hs' & Hev).
    destruct (step p s) as [[p' s'] ev]; simpl in *.
    split; [by apply Forall_insert|done].
  - repeat split; auto.
  - repeat split; auto.
Qed.

Lemma respects_exec sched (c : config) :
  Forall (respects allowed possible) c.2 → I c.1 →
  Forall (respects allowed possible) (exec sched c).1.2 ∧ I (exec sched c).1.1 ∧
  Forall (λ e, allowed (ev_action e) = true ∧
               possible (ev_action e) (ev_reply e)) (exec sched c).2.
Proof.
  revert c. induction sched as [|t sched IH]; intros c Hts Hs; [done|].
  rewrite exec_cons; simpl.
  destruct (respects_tick t c Hts Hs) as (Hts1 & Hs1 & Htr1).
  destruct (IH _ Hts1 Hs1) as (? & ? & ?).
  repeat split; try done. by apply Forall_app.
Qed.
End RelyGuarantee.

(** *** Pollers only read *)

Lemma status_read_only : read_only status.
Proof. unfold read_only, status, with_lock; cbn. explore. Qed.

Lemma reads_keep_slot f s a x s' :
  future s = f → reads_only a = true → perform a s = Yields x s' →
  True ∧ future s' = f.
Proof.
  intros Hs Ha Hp. split; [done|].
  destruct a; try discriminate Ha; simpl in Hp;
    repeat case_match; by simplify_eq.
Qed.

Lemma worker_start_slot s : future (worker_start s) = future s.
Proof.
  unfold worker_start. destruct (worker s); [done|].
  destruct (queue s) as [|h q]; [done|]. by destruct (fstate s h).
Qed.

Lemma worker_finish_slot r s : future (worker_finish r s) = future s.
Proof.
  unfold worker_finish. destruct (worker s) as [h|]; [|done].
  destruct (fstate s h); try done. by destruct r.
Qed.

Lemma pollers_keep_slot n sched s :
  future (exec sched (s, replicate n status)).1.1 = future s ∧
  Forall (λ e, writes (ev_action e) = false)
         (exec sched (s, replicate n status)).2.
Proof.
  destruct (respects_exec reads_only (λ _ _, True) (λ s', future s' = future s))
    with (sched := sched) (c := (s, replicate n status)) as (_ & Hs & Htr).
  - intros. by eapply reads_keep_slot.
  - intros s' Hs'. by rewrite worker_start_slot.
  - intros r s' Hs'. by rewrite worker_finish_slot.
  - apply Forall_replicate, status_read_only.
  - done.
  - split; [done|]. eapply Forall_impl; [done|]. intros e [He _]; simpl in He.
    unfold reads_only in He. by destruct (writes (ev_action e)).
Qed.

(** *** A handle that left the slot does not come back *)

Section Retired.
Variable h : handle.

Lemma home_stores_other : respects (stores_other h) (while_retired h) home.
Proof.
  unfold home, _submit_model, with_lock; cbn.
  explore_with ltac:(first [done | by apply bool_decide_eq_true_2]).
Qed.

Lemma status_stores_other : respects (stores_other h) (while_retired h) status.
Proof. unfold status, with_lock; cbn. explore. Qed.

Lemma home_view_stores_other fut :
  respects (stores_other h) (while_retired h) (home_view fut).
Proof. unfold home_view, with_lock. destruct fut; cbn; explore. Qed.

Lemma in_service_stores_other p :
  in_service p → respects (stores_other h) (while_retired h) p.
Proof.
  intros [[->|[->| ->]]|[fut ->]];
    [apply home_stores_other|apply status_stores_other|apply respects_ret|
     apply home_view_stores_other].
Qed.

Lemma retired_perform s a x s' :
  retired h s → stores_other h a = true → perform a s = Yields x s' →
  while_retired h a x ∧ retired h s'.
Proof.
  unfold retired. intros [Hs Hh] Ha Hp.
  destruct a; simpl in *; repeat case_match; simplify_eq/=;
    rewrite ?length_app, ?length_insert; simpl;
    repeat split; try done; try lia.
  - by apply bool_decide_eq_true_1 in Ha; congruence.
Qed.

Lemma retired_worker_start s : retired h s → retired h (worker_start s).
Proof.
  unfold retired. rewrite worker_start_slot. intros [? ?]. split; [done|].
  unfold worker_start. destruct (worker s); [done|].
  destruct (queue s) as [|h' q]; [done|].
  destruct (fstate s h'); try done. simpl. by rewrite length_insert.
Qed.

Lemma retired_worker_finish r s : retired h s → retired h (worker_finish r s).
Proof.
  unfold retired. rewrite worker_finish_slot. intros [? ?]. split; [done|].
  unfold worker_finish. destruct (worker s) as [h'|]; [|done].
  destruct (fstate s h'); try done.
  destruct r; simpl; by rewrite length_insert.
Qed.

Lemma retired_forever ts sched s :
  Forall in_service ts → retired h s →
  retired h (exec sched (s, ts)).1.1 ∧
  Forall (λ e, while_retired h (ev_action e) (ev_reply e))
         (exec sched (s, ts)).2.
Proof.
  intros Hts Hs.
  destruct (respects_exec (stores_other h) (while_retired h) (retired h))
    with (sched := sched) (c := (s, ts)) as (_ & Hs' & Htr); try done.
  - apply retired_perform.
  - apply retired_worker_start.
  - apply retired_worker_finish.
  - eapply Forall_impl; [done|]. apply in_service_stores_other.
  - split; [done|]. eapply Forall_impl; [done|]. by intros e [_ He].
Qed.
End Retired.

(** *** While a job is active *)

Section WhileActive.
Variable h : handle.

Lemma home_quiet : quiet h home.
Proof. unfold quiet, home, _submit_model, with_lock; cbn. explore. Qed.

Lemma status_quiet : quiet h status.
Proof. unfold quiet, status, with_lock; cbn. explore. Qed.

Lemma home_view_quiet : quiet h (home_view (Some h)).
Proof. unfold quiet, home_view, with_lock; cbn. explore. Qed.

Lemma awaits_quiet p : awaits h p → quiet h p.
Proof.
  intros [[->|[->| ->]]| ->];
    [apply home_quiet|apply status_quiet|apply respects_ret|
     apply home_view_quiet].
Qed.

Lemma quiet_step {A} (p : prog A) s :
  quiet h p → future s = Some h → is_done (fstate s h) = false →
  quiet h (step p s).1.1 ∧ same_but_lock s (step p s).1.2 ∧
  Forall (λ e, writes (ev_action e) = false) (step p s).2.
Proof.
  intros Hq Hfut Hnd. unfold same_but_lock.
  destruct Hq as [x|e|a k Ha Hk] eqn:E; simpl.
  1,2: by destruct s.
  clear E. destruct a; try discriminate Ha; simpl.
  all: repeat (case_match; simplify_eq/=);
    (split; [|split; [|by repeat constructor]]).
  all: try match goal with
           | |- ?s1 = set_lock _ ?s1 => by destruct s1; simpl in *; subst
           end.
  all: try done; try exact Hq; try (by apply respects_raise).
  all:  apply Hk; simpl; try done.
  - by intros ->.
  - intros ->. unfold fstate in *.
    match goal with H : fget _ h = FINISHED _ |- _ => rewrite H in Hnd end.
    done.
Qed.

Lemma tick_quiet t (c : config) :
  Forall (quiet h) c.2 → future c.1 = Some h → is_done (fstate c.1 h) = false →
  Forall (quiet h) (tick_exec t c).1.2 ∧ future (tick_exec t c).1.1 = Some h ∧
  length (futures (tick_exec t c).1.1) = length (futures c.1) ∧
  Forall (λ e, writes (ev_action e) = false) (tick_exec t c).2.
Proof.
  destruct c as [s ts]; simpl. intros Hts Hfut Hnd.
  destruct t as [i| |r]; simpl.
  - destruct (ts !! i) as [p|] eqn:Hi; simpl; [|done].
    assert (quiet h p) as Hp by (by eapply Forall_lookup_1).
    destruct (quiet_step p s Hp Hfut Hnd) as (Hp' & Hs' & Hev).
    destruct (step p s) as [[p' s'] ev]; simpl in *.
    split; [by apply Forall_insert|].
    unfold same_but_lock in Hs'. rewrite Hs'. destruct s; simpl in *. auto.
  - unfold worker_start.
    destruct (worker s); [done|]. destruct (queue s) as [|h' q]; [done|].
    destruct (fstate s h'); try done. simpl. by rewrite length_insert.
  - unfold worker_finish. destruct (worker s) as [h'|]; [|done].
    destruct (fstate s h'); try done.
    destruct r; simpl; by rewrite length_insert.
Qed.

Lemma exec_quiet sched (c : config) :
  Forall (quiet h) c.2 → future c.1 = Some h →
  is_done (fstate (exec sched c).1.1 h) = false →
  future (exec sched c).1.1 = Some h ∧
  length (futures (exec sched c).1.1) = length (futures c.1) ∧
  Forall (λ e, writes (ev_action e) = false) (exec sched c).2.
Proof.
  revert c. induction sched as [|t sched IH]; intros c Hts Hfut; [done|].
  rewrite exec_cons; simpl. intros Hnd.
  assert (is_done (fstate (tick_exec t c).1.1 h) = false) as Hnd1.
  { destruct (fstate (tick_exec t c).1.1 h) as [| |o] eqn:E; try done.
    by rewrite (exec_finished h o sched _ E) in Hnd. }
  assert (is_done (fstate c.1 h) = false) as Hnd0.
  { destruct (fstate c.1 h) as [| |o] eqn:E; try done.
    by rewrite (tick_finished h o t c E) in Hnd1. }
  destruct (tick_quiet t c Hts Hfut Hnd0) as (Hts1 & Hfut1 & Hlen1 & Htr1).
  destruct (IH _ Hts1 Hfut1 Hnd) as (? & ? & ?).
  repeat split; try done; try congruence. by apply Forall_app.
Qed.
End WhileActive.

Lemma dispatched_reads tr :
  Forall (λ e, writes (ev_action e) = false) tr → dispatched tr = [].
Proof.
  induction 1 as [|[a x] tr Hw _ IH]; [done|].
  destruct a; try discriminate Hw; exact IH.
Qed.


(** *** One worker, one running job *)

Lemma respects_anything {A} (p : prog A) : respects (λ _, true) (λ _ _, True) p.
Proof. induction p; constructor; auto. Qed.

Lemma one_running_perform s a x s' :
  one_running s → perform a s = Yields x s' → one_running s'.
Proof.
  unfold one_running, fstate. intros Hs Hp h'.
  destruct a; simpl in Hp; repeat case_match; simplify_eq; simpl; try apply Hs.
  - rewrite fget_push. case_decide; [done|apply Hs].
  - rewrite fget_push. case_decide; [done|apply Hs].
  - rewrite fget_insert. case_decide; [done|apply Hs].
  - rewrite fget_insert. case_decide; [done|apply Hs].
Qed.

Lemma one_running_worker_start s : one_running s → one_running (worker_start s).
Proof.
  unfold one_running, worker_start. intros Hs h'.
  destruct (worker s) as [n|] eqn:Hw; [by rewrite Hw; apply Hs|].
  destruct (queue s) as [|h q]; [by rewrite Hw; apply Hs|].
  destruct (fstate s h) eqn:Hh; try (by rewrite Hw; apply Hs).
  unfold fstate; simpl. rewrite fget_insert. case_decide as E.
  - by destruct E as [-> _].
  - intros Hr. by specialize (Hs h' Hr).
Qed.

Lemma one_running_worker_finish r s :
  one_running s → one_running (worker_finish r s).
Proof.
  unfold one_running, worker_finish. intros Hs h'.
  destruct (worker s) as [h|] eqn:Hw; [|by rewrite Hw; apply Hs].
  destruct (fstate s h) eqn:Hh; try (by rewrite Hw; apply Hs).
  destruct r; unfold fstate; simpl; rewrite fget_insert; case_decide as E;
    try done; intros Hr; pose proof (Hs h' Hr); simplify_eq;
    destruct E; (split; [done|]); apply fget_alloc; unfold fstate in Hr;
    congruence.
Qed.

Lemma one_running_exec sched (c : config) :
  one_running c.1 → one_running (exec sched c).1.1.
Proof.
  intros Hc.
  destruct (respects_exec (λ _, true) (λ _ _, True) one_running)
    with (sched := sched) (c := c) as (_ & H & _); try done.
  - intros s a x s' Hs _ Hp. split; [done|]. by eapply one_running_perform.
  - apply one_running_worker_start.
  - apply one_running_worker_finish.
  - apply Forall_forall. intros p _. apply respects_anything.
Qed.

(** Whatever the requests are and however they overlap, from the start of
    the server on at most one future is RUNNING at any time: the one job
    the executor's single thread is running. *)
Lemma at_most_one_running m ts sched h1 h2 :
  let s := (exec sched (Flask m, ts)).1.1 in
  fstate s h1 = RUNNING → fstate s h2 = RUNNING → h1 = h2.
Proof.
  intros s H1 H2.
  assert (one_running s) as Hs by (apply one_running_exec; by intros h).
  apply Hs in H1, H2. congruence.
Qed.

(** *** Without a Trainable the executor is never used *)

Lemma home_keeps_off_executor :
  respects keeps_off_executor without_trainable home.
Proof. unfold home, _submit_model, with_lock; cbn. explore. Qed.

Lemma status_keeps_off_executor :
  respects keeps_off_executor without_trainable status.
Proof. unfold status, with_lock; cbn. explore. Qed.

Lemma executor_unused_perform s a x s' :
  executor_unused s → keeps_off_executor a = true →
  perform a s = Yields x s' → without_trainable a x ∧ executor_unused s'.
Proof.
  unfold executor_unused, has_trainable. intros (Hm & Hq & Hw) Ha Hp.
  destruct a; try discriminate Ha; simpl in Hp;
    repeat case_match; by simplify_eq.
Qed.

Lemma executor_unused_exec ts sched s :
  Forall is_handler ts → executor_unused s →
  executor_unused (exec sched (s, ts)).1.1 ∧
  dispatched (exec sched (s, ts)).2 = [].
Proof.
  intros Hts Hs.
  destruct (respects_exec keeps_off_executor without_trainable executor_unused)
    with (sched := sched) (c := (s, ts)) as (_ & Hs' & Htr); try done.
  - apply executor_unused_perform.
  - intros s0 (Hm & Hq & Hw). unfold worker_start. by rewrite Hw, Hq.
  - intros r s0 (Hm & Hq & Hw). unfold worker_finish. by rewrite Hw.
  - eapply Forall_impl; [done|].
    intros p [->|[->| ->]];
      [apply home_keeps_off_executor|apply status_keeps_off_executor|
       apply respects_ret].
  - split; [done|]. clear -Htr.
    induction Htr as [|[a x] tr [Ha _] _ IH]; [done|].
    destruct a; try discriminate Ha; exact IH.
Qed.

(** ** More about [home] served alone *)

Lemma home_view_unfinished s h :
  is_done (fstate s h) = false →
  call (home_view (Some h)) s =
  (Returns (progress_page (fstate s h)), s,
   Ev (IsRunning h) (is_running (fstate s h)) ::
   if is_running (fstate s h) then [] else [Ev (IsDone h) false]).
Proof.
  destruct s as [m f l fs q w lg]; unfold fstate, progress_page; simpl.
  intros Hnd. destruct (fget fs h) eqn:Hf; try done; run; done.
Qed.

Lemma stale_or_active s :
  stale s ∨ ∃ h, future s = Some h ∧ is_done (fstate s h) = false.
Proof.
  unfold stale. destruct (future s) as [h|]; [|by left].
  destruct (is_done (fstate s h)) eqn:E; [left|right; by exists h].
  intros h' ?. by simplify_eq.
Qed.

Lemma home_on_active_slot s h :
  future_lock s = false → future s = Some h → is_done (fstate s h) = false →
  (call home s).1 = (Returns (progress_page (fstate s h)), s) ∧
  dispatched (call home s).2 = [].
Proof.
  intros Hl Hfut Hnd. unfold home.
  rewrite call_bind, (submit_on_active_slot s h Hl Hfut Hnd). cbv iota beta.
  rewrite (home_view_unfinished s h Hnd). split; [done|].
  by destruct (is_running (fstate s h)).
Qed.

Lemma home_on_stale_slot s :
  future_lock s = false → stale s →
  let h' := length (futures s) in
  (call home s).1 =
    (if has_trainable s then
       (Returns (progress_page PENDING),
        mkApp (model s) (Some h') false (futures s ++ [PENDING]) (queue s ++ [h'])
              (worker s) (log s ++ [(INFO, "Submitting background model run")]))
     else
       (Returns (Page "No model available"),
        mkApp (model s) None false
              (futures s ++ [FINISHED (Returned "No model available")]) (queue s)
              (worker s) (log s))) ∧
  dispatched (call home s).2 = if has_trainable s then [h'] else [].
Proof.
  intros Hl Hst h'. unfold home.
  rewrite call_bind, (submit_on_stale_slot s Hl Hst). fold h'.
  destruct (has_trainable s); cbv iota beta.
  - set (s1 := mkApp _ _ _ _ _ _ _).
    assert (fstate s1 h' = PENDING) as Hf by apply fget_push_new.
    rewrite (home_view_unfinished s1 h') by (by rewrite Hf). rewrite Hf.
    split; [done|]. by destruct (future s).
  - set (s1 := mkApp _ _ _ _ _ _ _).
    rewrite (home_view_completed s1 h' (Returned "No model available"));
      [|done|apply fget_push_new].
    split; [done|]. by destruct (future s).
Qed.

Lemma worker_start_length s :
  length (futures (worker_start s)) = length (futures s).
Proof.
  unfold worker_start. destruct (worker s); [done|].
  destruct (queue s) as [|h q]; [done|].
  destruct (fstate s h); try done. simpl. by rewrite length_insert.
Qed.

Lemma worker_finish_length r s :
  length (futures (worker_finish r s)) = length (futures s).
Proof.
  unfold worker_finish. destruct (worker s) as [h|]; [|done].
  destruct (fstate s h); try done. destruct r; simpl; by rewrite length_insert.
Qed.

Lemma in_flight_worker_start s h : in_flight (worker_start s) h → in_flight s h.
Proof.
  unfold in_flight. rewrite worker_start_length. intros [? Hnd].
  split; [done|]. destruct (fstate s h) as [| |o] eqn:E; try done.
  by rewrite (worker_start_finished h o s E) in Hnd.
Qed.

Lemma in_flight_worker_finish r s h :
  in_flight (worker_finish r s) h → in_flight s h.
Proof.
  unfold in_flight. rewrite worker_finish_length. intros [? Hnd].
  split; [done|]. destruct (fstate s h) as [| |o] eqn:E; try done.
  by rewrite (worker_finish_finished h o r s E) in Hnd.
Qed.

Lemma served_job_in_slot m s :
  served m s →
  future_lock s = false ∧ ∀ h, in_flight s h → future s = Some h.
Proof.
  induction 1 as [|p s Hs [Hl IH] Hp|s Hs [Hl IH]|r s Hs [Hl IH]].
  - split; [done|]. intros h [Hh _]. simpl in Hh. lia.
  - destruct Hp as [->|[->| ->]]; [| |done].
    + destruct (stale_or_active s) as [Hst|(h & Hfut & Hnd)].
      * destruct (home_on_stale_slot s Hl Hst) as [-> _].
        destruct (has_trainable s); simpl; (split; [done|]);
          intros x [Hx Hnd]; unfold fstate in *; simpl in *;
          rewrite length_app in Hx; simpl in Hx;
          rewrite fget_push in Hnd; case_decide; simplify_eq; try done.
        all: assert (in_flight s x) as Hin by (split; [lia|done]).
        all: pose proof (Hst x (IH x Hin)) as Hd; unfold fstate in Hd; congruence.
      * by destruct (home_on_active_slot s h Hl Hfut Hnd) as [-> _].
    + by destruct (status_call s Hl) as (p & tr & -> & _).
  - split.
    { unfold worker_start. destruct (worker s); [done|].
      destruct (queue s) as [|h q]; [done|]. by destruct (fstate s h). }
    intros h Hh%in_flight_worker_start. rewrite worker_start_slot. auto.
  - split.
    { unfold worker_finish. destruct (worker s) as [h|]; [|done].
      destruct (fstate s h); try done. by destruct r. }
    intros h Hh%in_flight_worker_finish. rewrite worker_finish_slot. auto.
Qed.

(** ** The log and the jobs *)






(** ** The lock discipline *)

Ltac walk :=
  repeat first
    [ apply disc_ret
    | apply disc_raise
    | apply disc_acquire; cbn; intros [?|]; cbn
    | apply disc_release; cbn
    | apply disc_get_future; cbn
    | apply disc_set_future; cbn
    | apply disc_set_result; cbn
    | apply disc_new_future; cbn; intros ?; cbn
    | apply disc_observe; [done|]; cbn; intros []; cbn
    | apply disc_observe; [done|]; cbn; intros ?; cbn
    | apply disc_neutral; [done|]; cbn; intros []; cbn
    | apply disc_neutral; [done|]; cbn; intros ?; cbn
    | match goal with
      | |- context [if ?b then _ else _] => is_var b; destruct b; cbn
      end ].

Lemma home_disciplined : disciplined Outside home.
Proof. unfold home, _submit_model, with_lock; cbn. walk. Qed.

Lemma status_disciplined : disciplined Outside status.
Proof. unfold status, with_lock; cbn. walk. Qed.

Lemma inside_holds s ms i v own :
  lock_inv s ms → ms !! i = Some (Inside v own) →
  future_lock s = true ∧ future s = v ∧ owned s own ∧ queue_allocated s ∧
  (∀ j m, ms !! j = Some m → j ≠ i → m = Outside).
Proof.
  intros [Hq Hl] Hi. destruct (future_lock s).
  - destruct Hl as (i0 & v0 & own0 & Hi0 & Hothers & Hv & Hown).
    destruct (decide (i = i0)) as [->|Hne].
    + by simplify_eq.
    + by specialize (Hothers i _ Hi Hne).
  - by pose proof (Forall_lookup_1 _ _ _ _ Hl Hi).
Qed.

Lemma lock_inv_inside s' ms i v own v' own' :
  ms !! i = Some (Inside v own) →
  (∀ j m, ms !! j = Some m → j ≠ i → m = Outside) →
  future_lock s' = true → future s' = v' → owned s' own' → queue_allocated s' →
  lock_inv s' (<[i := Inside v' own']> ms).
Proof.
  intros Hi Hothers Hl Hv Hown Hq. split; [done|]. rewrite Hl.
  exists i, v', own'. apply lookup_lt_Some in Hi as Hlt. repeat split; try done.
  - by rewrite list_lookup_insert_eq.
  - intros j m Hj Hne. rewrite list_lookup_insert_ne in Hj by done. eauto.
Qed.

Lemma lock_inv_leave s' ms i v own :
  ms !! i = Some (Inside v own) →
  (∀ j m, ms !! j = Some m → j ≠ i → m = Outside) →
  future_lock s' = false → queue_allocated s' →
  lock_inv s' (<[i := Outside]> ms).
Proof.
  intros Hi Hothers Hl Hq. split; [done|]. rewrite Hl.
  apply Forall_lookup_2. intros j m Hj.
  destruct (decide (i = j)) as [->|Hne].
  - apply lookup_lt_Some in Hi. rewrite list_lookup_insert_eq in Hj by done.
    by simplify_eq.
  - rewrite list_lookup_insert_ne in Hj by done. eauto.
Qed.

Lemma lock_inv_enter s ms i :
  lock_inv s ms → ms !! i = Some Outside → future_lock s = false →
  lock_inv (set_lock true s) (<[i := Inside (future s) None]> ms).
Proof.
  intros [Hq Hl] Hi Hf. rewrite Hf in Hl. split; [done|]. simpl.
  exists i, (future s), None. apply lookup_lt_Some in Hi as Hlt.
  repeat split; try done.
  - by rewrite list_lookup_insert_eq.
  - intros j m Hj Hne. rewrite list_lookup_insert_ne in Hj by done.
    by pose proof (Forall_lookup_1 _ _ _ _ Hl Hj).
Qed.

Lemma lock_inv_stay s ms i m :
  lock_inv s ms → ms !! i = Some m → lock_inv s (<[i := m]> ms).
Proof. intros ? ?. by rewrite list_insert_id. Qed.

Lemma owned_same s s' own :
  futures s' = futures s → queue s' = queue s → owned s own → owned s' own.
Proof.
  destruct own as [f|]; [|done]. unfold owned, fstate. by intros -> ->.
Qed.

Lemma queue_allocated_mono s s' :
  queue s' = queue s → length (futures s) ≤ length (futures s') →
  queue_allocated s → queue_allocated s'.
Proof.
  unfold queue_allocated. intros -> Hle H. eapply Forall_impl; [done|].
  intros h ?; simpl in *. lia.
Qed.

Lemma owned_push s own x :
  owned s own → owned (set_futures (futures s ++ [x]) s) own.
Proof.
  destruct own as [f|]; [|done]. unfold owned, fstate; simpl.
  intros (Hf & Hlt & Hq). rewrite fget_push, length_app; simpl.
  case_decide; [lia|]. split; [done|]. split; [lia|done].
Qed.

Lemma disciplined_step {A} (p : prog A) s ms i m :
  ms !! i = Some m → disciplined m p → lock_inv s ms →
  ∃ m', disciplined m' (step p s).1.1 ∧ lock_inv (step p s).1.2 (<[i := m']> ms).
Proof.
  intros Hi Hd Hinv.
  destruct Hd as [x| |k Hk|a k Ha Hk|v k Hk|v own k Hk|v own v' k Hk
                 |v k Hk|v f r k Hk|v own a k Ha Hk]; simpl.
  - exists Outside. split; [constructor|by apply lock_inv_stay].
  - exists Outside. split; [constructor|by apply lock_inv_stay].
  - destruct (future_lock s) eqn:Hl; simpl.
    + exists Outside. split; [by constructor|by apply lock_inv_stay].
    + exists (Inside (future s) None). split; [apply Hk|by apply lock_inv_enter].
  - assert (disciplined Outside (Do a k)) as Hsame by (by constructor).
    destruct a; try discriminate Ha; simpl;
      try (exists Outside; split; [apply Hk|by apply lock_inv_stay]).
    all: destruct (fstate s h); simpl;
      exists Outside; (split; [done || apply Hk|by apply lock_inv_stay]).
  - destruct (inside_holds s ms i v None Hinv Hi) as (Hl & Hv & _ & Hq & Hothers).
    rewrite Hl; simpl. exists Outside. split; [done|].
    by eapply lock_inv_leave.
  - destruct (inside_holds s ms i v own Hinv Hi) as (Hl & Hv & _ & Hq & Hothers).
    rewrite Hv. exists (Inside v own). split; [done|by apply lock_inv_stay].
  - destruct (inside_holds s ms i v own Hinv Hi) as (Hl & Hv & Hown & Hq & Hothers).
    exists (Inside v' own). split; [done|].
    eapply lock_inv_inside; try done; by eapply owned_same.
  - destruct (inside_holds s ms i v None Hinv Hi) as (Hl & Hv & _ & Hq & Hothers).
    exists (Inside v (Some (length (futures s)))). split; [apply Hk|].
    eapply lock_inv_inside; try done.
    + unfold owned, fstate; simpl. rewrite fget_push_new, length_app; simpl.
      split; [done|]. split; [lia|]. intros Hin.
      pose proof (proj1 (Forall_forall _ _) Hq _ Hin) as Hlt. simpl in Hlt. lia.
    + eapply queue_allocated_mono; [| |done]; [done|].
      simpl. rewrite length_app. lia.
  - destruct (inside_holds s ms i v (Some f) Hinv Hi)
      as (Hl & Hv & (Hf & Hlt & Hnq) & Hq & Hothers).
    rewrite Hf; simpl. exists (Inside v None). split; [done|].
    eapply lock_inv_inside; try done.
    eapply queue_allocated_mono; [| |done]; [done|].
    simpl. by rewrite length_insert.
  - destruct (inside_holds s ms i v own Hinv Hi) as (Hl & Hv & Hown & Hq & Hothers).
    assert (disciplined (Inside v own) (Do a k)) as Hsame by (by constructor).
    destruct a; try discriminate Ha; simpl.
    + exists (Inside v own). split; [apply Hk|by apply lock_inv_stay].
    + exists (Inside v own). split; [apply Hk|].
      eapply lock_inv_inside; try done; by eapply owned_same.
    + exists (Inside v own). split; [apply Hk|].
      eapply lock_inv_inside; try done.
      * destruct own as [f|]; [|done]. destruct Hown as (Hf & Hlt & Hnq).
        unfold owned, fstate in *; simpl. rewrite fget_push, length_app; simpl.
        case_decide; [lia|]. split; [done|]. split; [lia|].
        rewrite elem_of_app, list_elem_of_singleton. intros [?|?]; [done|lia].
      * unfold queue_allocated in *; simpl. rewrite length_app; simpl.
        apply Forall_app. split.
        -- eapply Forall_impl; [done|]. intros h ?; simpl in *. lia.
        -- apply Forall_singleton. lia.
    + exists (Inside v own). split; [apply Hk|by apply lock_inv_stay].
    + exists (Inside v own). split; [apply Hk|by apply lock_inv_stay].
    + destruct (fstate s h); simpl;
        exists (Inside v own); (split; [done || apply Hk|by apply lock_inv_stay]).
Qed.

Lemma lock_inv_worker_start s ms : lock_inv s ms → lock_inv (worker_start s) ms.
Proof.
  intros [Hq Hl]. unfold worker_start.
  destruct (worker s); [done|]. destruct (queue s) as [|h q] eqn:Eq; [done|].
  destruct (fstate s h) eqn:Eh; try done.
  unfold queue_allocated in Hq. rewrite Eq in Hq.
  apply Forall_cons in Hq as [Hh Hq]. split.
  - unfold queue_allocated; simpl. by rewrite length_insert.
  - simpl. destruct (future_lock s); [|done].
    destruct Hl as (i & v & own & Hi & Hothers & Hv & Hown).
    exists i, v, own. repeat split; try done.
    destruct own as [f|]; [|done]. destruct Hown as (Hf & Hlt & Hnq).
    rewrite Eq in Hnq. apply not_elem_of_cons in Hnq as [Hne Hnq].
    unfold owned, fstate in *; simpl.
    rewrite length_insert, fget_insert_ne by done. done.
Qed.

Lemma lock_inv_worker_finish r s ms :
  lock_inv s ms → lock_inv (worker_finish r s) ms.
Proof.
  intros [Hq Hl]. unfold worker_finish.
  destruct (worker s) as [h|]; [|done].
  destruct (fstate s h) eqn:Eh; try done.
  assert (∀ o lv msg,
    lock_inv (set_worker None
                (set_futures (<[h := FINISHED o]> (futures (add_log lv msg s)))
                   (add_log lv msg s))) ms) as H; [|by destruct r; apply H].
  intros o lv msg. split.
  - unfold queue_allocated in *; simpl. by rewrite length_insert.
  - simpl. destruct (future_lock s); [|done].
    destruct Hl as (i & v & own & Hi & Hothers & Hv & Hown).
    exists i, v, own. repeat split; try done.
    destruct own as [f|]; [|done]. destruct Hown as (Hf & Hlt & Hnq).
    unfold owned, fstate in *; simpl.
    rewrite length_insert, fget_insert_ne; [done|]. intros ->. congruence.
Qed.

Lemma disciplined_tick t (c : config) ms :
  Forall2 (λ m p, disciplined m p) ms c.2 → lock_inv c.1 ms →
  ∃ ms', Forall2 (λ m p, disciplined m p) ms' (tick_exec t c).1.2 ∧
         lock_inv (tick_exec t c).1.1 ms'.
Proof.
  destruct c as [s ts]; simpl. intros Hts Hinv. destruct t as [i| |r]; simpl.
  - destruct (ts !! i) as [p|] eqn:Hp; simpl; [|by exists ms].
    destruct (Forall2_lookup_r _ _ _ _ _ Hts Hp) as (m & Hm & Hd).
    destruct (disciplined_step p s ms i m Hm Hd Hinv) as (m' & Hd' & Hinv').
    destruct (step p s) as [[p' s'] ev]; simpl in *.
    exists (<[i := m']> ms). split; [by apply Forall2_insert|done].
  - exists ms. split; [done|by apply lock_inv_worker_start].
  - exists ms. split; [done|by apply lock_inv_worker_finish].
Qed.

Lemma disciplined_exec sched (c : config) ms :
  Forall2 (λ m p, disciplined m p) ms c.2 → lock_inv c.1 ms →
  ∃ ms', Forall2 (λ m p, disciplined m p) ms' (exec sched c).1.2 ∧
         lock_inv (exec sched c).1.1 ms'.
Proof.
  revert c ms. induction sched as [|t sched IH]; intros c ms Hts Hinv.
  { by exists ms. }
  rewrite exec_cons; simpl.
  destruct (disciplined_tick t c ms Hts Hinv) as (ms1 & Hts1 & Hinv1). eauto.
Qed.

Lemma handler_disciplined p : is_handler p → disciplined Outside p.
Proof.
  intros [->|[->| ->]];
    [apply home_disciplined|apply status_disciplined|apply disc_ret].
Qed.


(** ** A job from start to end *)

Lemma status_of_slot s h :
  future_lock s = false → future s = Some h →
  (call status s).1.1 =
  Returns (Json match fstate s h with
                | PENDING => Payload "unknown" None
                | RUNNING => Payload "running" None
                | FINISHED o => Payload "done" (Some (status_result o))
                end).
Proof.
  intros Hl Hf. destruct (status_call s Hl) as (p & tr & -> & _ & Hp).
  rewrite Hf in Hp. simpl. by destruct (fstate s h) as [| |[r|e]]; subst p.
Qed.

Lemma job_states m fs lg o :
  let h := length fs in
  let s1 := mkApp m (Some h) false (fs ++ [PENDING]) [h] None lg in
  worker_start s1 = mkApp m (Some h) false (fs ++ [RUNNING]) [] (Some h) lg ∧
  ∃ lg', worker_finish o (worker_start s1) =
         mkApp m (Some h) false (fs ++ [FINISHED o]) [] None lg'.
Proof.
  intros h s1. unfold s1, h, worker_start, fstate. simpl.
  rewrite fget_push_new, insert_push. split; [done|].
  unfold worker_finish, fstate. simpl. rewrite fget_push_new.
  destruct o as [r|e]; simpl; rewrite insert_push; by eexists.
Qed.

(** ** Requests that start after a handle has left the slot *)

Ltac shun :=
  first [ done
        | apply andb_true_intro; split;
          [ first [done | apply bool_decide_eq_true_2; congruence]
          | first [done | apply negb_true_iff, bool_decide_eq_false_2; congruence] ] ].

Lemma home_shuns h : respects (shuns h) (while_retired h) home.
Proof.
  unfold home, _submit_model, with_lock; cbn.
  explore_with ltac:(shun).
Qed.

Lemma status_shuns h : respects (shuns h) (while_retired h) status.
Proof. unfold status, with_lock; cbn. explore_with ltac:(shun). Qed.

Lemma handler_shuns h p : is_handler p → respects (shuns h) (while_retired h) p.
Proof.
  intros [->|[->| ->]];
    [apply home_shuns|apply status_shuns|apply respects_ret].
Qed.

Lemma shunned_not_consumed h tr :
  Forall (λ e, shuns h (ev_action e) = true) tr → consumed h tr = 0.
Proof.
  unfold consumed. induction 1 as [|[a x] tr Ha _ IH]; simpl; [done|].
  rewrite IH. unfold reads_result. simpl in *.
  destruct a; try done. unfold shuns in Ha. simpl in Ha.
  by destruct (bool_decide (h0 = h)).
Qed.

Lemma shunned_forever h ts sched s :
  Forall is_handler ts → retired h s →
  retired h (exec sched (s, ts)).1.1 ∧
  Forall (λ e, shuns h (ev_action e) = true ∧
               while_retired h (ev_action e) (ev_reply e))
         (exec sched (s, ts)).2.
Proof.
  intros Hts Hs.
  destruct (respects_exec (shuns h) (while_retired h) (retired h))
    with (sched := sched) (c := (s, ts)) as (_ & Hs' & Htr); try done.
  - intros s0 a x s' H0 Ha. apply retired_perform; [done|].
    by apply andb_true_iff in Ha as [? _].
  - apply retired_worker_start.
  - apply retired_worker_finish.
  - eapply Forall_impl; [done|]. apply handler_shuns.
Qed.

(** ** One request and the worker, step by step *)

Lemma view_holds_worker_start md v s :
  view_holds md v s → view_holds md v (worker_start s).
Proof.
  intros (Hm & Hf & Hl & Hn & Hown & Hq & Hd). unfold worker_start.
  destruct (worker s); [done|]. destruct (queue s) as [|h q] eqn:Eq; [done|].
  destruct (fstate s h) eqn:Eh; try done.
  unfold queue_allocated in Hq. rewrite Eq in Hq.
  apply Forall_cons in Hq as [Hh Hq].
  repeat split; simpl; try done.
  - by rewrite length_insert.
  - destruct (v_own v) as [f|]; [|done]. destruct Hown as (Hf' & Hlt & Hnq).
    rewrite Eq in Hnq. apply not_elem_of_cons in Hnq as [Hne Hnq].
    unfold owned, fstate in *; simpl.
    rewrite length_insert, fget_insert_ne by done. done.
  - unfold queue_allocated; simpl. by rewrite length_insert.
  - eapply Forall_impl; [done|]. intros x Hx; simpl in *.
    unfold fstate in *; simpl. rewrite fget_insert_ne; [done|].
    intros ->. by rewrite Eh in Hx.
Qed.

Lemma view_holds_worker_finish md v r s :
  view_holds md v s → view_holds md v (worker_finish r s).
Proof.
  intros (Hm & Hf & Hl & Hn & Hown & Hq & Hd). unfold worker_finish.
  destruct (worker s) as [h|]; [|done].
  destruct (fstate s h) eqn:Eh; try done.
  assert (∀ o lv msg,
    view_holds md v
      (set_worker None
         (set_futures (<[h := FINISHED o]> (futures (add_log lv msg s)))
            (add_log lv msg s)))) as H; [|by destruct r; apply H].
  intros o lv msg. repeat split; simpl; try done.
  - by rewrite length_insert.
  - destruct (v_own v) as [f|]; [|done]. destruct Hown as (Hf' & Hlt & Hnq).
    unfold owned, fstate in *; simpl.
    rewrite length_insert, fget_insert_ne; [done|]. intros ->. congruence.
  - unfold queue_allocated in *; simpl. by rewrite length_insert.
  - eapply Forall_impl; [done|]. intros x Hx; simpl in *.
    unfold fstate in *; simpl. rewrite fget_insert_ne; [done|].
    intros ->. by rewrite Eh in Hx.
Qed.

Lemma done_stays_push s x (dn : list handle) :
  Forall (λ h, is_done (fstate s h) = true) dn →
  Forall (λ h, is_done (fget (futures s ++ [x]) h) = true) dn.
Proof.
  intros H. eapply Forall_impl; [done|]. intros h Hh; simpl in *.
  unfold fstate in Hh. rewrite fget_push_old; [done|]. intros E.
  by rewrite E in Hh.
Qed.

Lemma alone_step md {A} (Q : view → A → Prop) n v (p : prog A) s :
  alone md Q n v p → view_holds md v s →
  ∃ v', alone md Q (pred n) v' (step p s).1.1 ∧
        view_holds md v' (step p s).1.2 ∧
        v_trace v' = (v_trace v ++ (step p s).2)%list.
Proof.
  intros Hp (Hm & Hf & Hl & Hn & Hown & Hq & Hd); simpl in *.
  destruct Hp as [n v x HQ|n sl own nx dn tr k Hk|n sl own nx dn tr k Hk
                 |n sl l own nx dn tr k Hk|n sl l own nx dn tr sl' k Hk
                 |n sl l own nx dn tr k Hk|n sl l own nx dn tr msg k Hk
                 |n sl l own nx dn tr k Hk|n sl l nx dn tr k Hk
                 |n sl l f nx dn tr r k Hk|n sl l own nx dn tr h k Hk
                 |n sl l own nx dn tr h k Hin Hk|n sl l own nx dn tr h k Hk1 Hk0
                 |n sl l own nx dn tr h k Hin Hk]; simpl in *.
  - exists v. split; [by constructor|]. split; [done|]. by rewrite app_nil_r.
  - rewrite Hl; simpl. eexists. split; [done|]. by repeat split.
  - rewrite Hl; simpl. eexists. split; [done|]. by repeat split.
  - rewrite Hf. eexists. split; [done|]. by repeat split.
  - eexists. split; [done|]. by repeat split.
  - rewrite Hm. eexists. split; [done|]. by repeat split.
  - eexists. split; [done|]. by repeat split.
  - rewrite Hn. eexists. split; [done|]. repeat split; simpl; try done.
    + rewrite length_app; simpl. lia.
    + destruct own as [f|]; [|done]. destruct Hown as (Hf' & Hlt & Hnq).
      unfold owned, fstate in *; simpl. rewrite fget_push, length_app; simpl.
      case_decide; [lia|]. split; [done|]. split; [lia|].
      rewrite elem_of_app, list_elem_of_singleton. intros [?|?]; [done|lia].
    + unfold queue_allocated in *; simpl. rewrite length_app; simpl.
      apply Forall_app. split.
      * eapply Forall_impl; [done|]. intros h ?; simpl in *. lia.
      * apply Forall_singleton. lia.
    + by apply done_stays_push.
  - rewrite Hn. eexists. split; [done|]. repeat split; simpl; try done.
    + rewrite length_app; simpl. lia.
    + unfold fstate; simpl. rewrite <- Hn. apply fget_push_new.
    + rewrite length_app; simpl. lia.
    + intros Hin. pose proof (proj1 (Forall_forall _ _) Hq _ Hin) as Hlt.
      simpl in Hlt. lia.
    + unfold queue_allocated in *; simpl. rewrite length_app; simpl.
      eapply Forall_impl; [done|]. intros h ?; simpl in *. lia.
    + by apply done_stays_push.
  - destruct Hown as (Hf' & Hlt & Hnq). rewrite Hf'; simpl.
    eexists. split; [done|]. repeat split; simpl; try done.
    + by rewrite length_insert.
    + unfold queue_allocated in *; simpl. by rewrite length_insert.
    + apply Forall_cons. split.
      * unfold fstate; simpl. by rewrite fget_insert_eq.
      * eapply Forall_impl; [done|]. intros x Hx; simpl in *.
        unfold fstate in *; simpl. rewrite fget_insert_ne; [done|].
        intros ->. by rewrite Hf' in Hx.
  - eexists. split; [apply Hk|]. by repeat split.
  - pose proof (proj1 (Forall_forall _ _) Hd _ Hin) as Hh. simpl in Hh.
    rewrite Hh. eexists. split; [done|]. by repeat split.
  - destruct (is_done (fstate s h)) eqn:Eh.
    + eexists. split; [done|]. repeat split; simpl; try done.
      by apply Forall_cons.
    + eexists. split; [done|]. by repeat split.
  - pose proof (proj1 (Forall_forall _ _) Hd _ Hin) as Hh. simpl in Hh.
    destruct (fstate s h) as [| |o]; try done. simpl.
    eexists. split; [apply Hk|]. by repeat split.
Qed.

Lemma alone_0 md {A} (Q : view → A → Prop) v (p : prog A) :
  alone md Q 0 v p → ∃ x, p = Ret x ∧ Q v x.
Proof. inversion 1; subst. by eexists. Qed.

Lemma alone_exec md (Q : view → response → Prop) sched :
  ∀ n v p s,
  alone md Q n v p → view_holds md v s →
  ∃ v' p', (exec sched (s, [p])).1.2 = [p'] ∧
           alone md Q (n - count own_step sched) v' p' ∧
           view_holds md v' (exec sched (s, [p])).1.1 ∧
           v_trace v' = (v_trace v ++ (exec sched (s, [p])).2)%list.
Proof.
  induction sched as [|t sched IH]; intros n v p s Hp Hv.
  { exists v, p. simpl. rewrite Nat.sub_0_r, app_nil_r. done. }
  rewrite exec_cons. simpl. destruct t as [[|i]| |r]; simpl.
  - destruct (alone_step md Q n v p s Hp Hv) as (v1 & Hp1 & Hv1 & Htr1).
    destruct (step p s) as [[p1 s1] ev]; simpl in *.
    destruct (IH _ _ _ _ Hp1 Hv1) as (v' & p' & E & Hp' & Hv' & Htr').
    exists v', p'. split; [done|]. split.
    { by replace (n - S (count own_step sched)) with
        (pred n - count own_step sched) by lia. }
    split; [done|]. by rewrite Htr', Htr1, <- app_assoc.
  - apply (IH _ _ _ _ Hp Hv).
  - destruct (IH _ _ _ _ Hp (view_holds_worker_start _ _ _ Hv))
      as (v' & p' & E & Hp' & Hv' & Htr'). by exists v', p'.
  - destruct (IH _ _ _ _ Hp (view_holds_worker_finish _ _ r _ Hv))
      as (v' & p' & E & Hp' & Hv' & Htr'). by exists v', p'.
Qed.

(** A request that overlaps no other: it never raises, and once the
    schedule has given it [n] steps it has returned, with [Q]. *)
Lemma alone_returns md (Q : view → response → Prop) sched n v p s :
  alone md Q n v p → view_holds md v s →
  (∀ e, (exec sched (s, [p])).1.2 ≠ [Raise e]) ∧
  (∀ x, (exec sched (s, [p])).1.2 = [Ret x] →
        ∃ v', Q v' x ∧ view_holds md v' (exec sched (s, [p])).1.1 ∧
              v_trace v' = (v_trace v ++ (exec sched (s, [p])).2)%list) ∧
  (n ≤ count own_step sched → ∃ x, (exec sched (s, [p])).1.2 = [Ret x]).
Proof.
  intros Hp Hv.
  destruct (alone_exec md Q sched n v p s Hp Hv) as (v' & p' & E & Hp' & Hv' & Htr).
  rewrite E. split; [|split].
  - intros e [= ->]. inversion Hp'.
  - intros x [= ->]. exists v'. split; [|done]. by inversion Hp'; subst.
  - intros Hn. replace (n - count own_step sched) with 0 in Hp' by lia.
    destruct (alone_0 _ _ _ _ Hp') as (x & -> & _). by exists x.
Qed.

(** Walks through a program by the rules of [alone]. *)
Ltac alone_walk tac :=
  repeat first
    [ apply alone_ret; tac
    | apply alone_acquire; cbn
    | apply alone_release; cbn
    | apply alone_get_future; cbn
    | apply alone_set_future; cbn
    | apply alone_get_model; cbn
    | apply alone_log; cbn
    | apply alone_submit; cbn
    | apply alone_new_future; cbn
    | apply alone_set_result; cbn
    | apply alone_is_running; intros []; cbn
    | apply alone_is_done_known; [by repeat constructor|]; cbn
    | apply alone_is_done; cbn
    | apply alone_get_result; [by repeat constructor|]; intros ?; cbn
    | match goal with
      | H : truthy ?m && hasattr_run_model ?m = _
        |- context [truthy ?m && hasattr_run_model ?m] => rewrite H; cbn
      | |- context [if truthy ?m && hasattr_run_model ?m then _ else _] =>
          destruct (truthy m && hasattr_run_model m); cbn
      | |- context [if ?b then _ else _] => is_var b; destruct b; cbn
      end ].

Lemma home_alone md sl nx :
  alone md returns_a_page 16 (View sl false None nx [] []) home.
Proof.
  unfold home, _submit_model, with_lock; cbn.
  destruct sl as [h|]; cbn;
    alone_walk ltac:(by (split; [done|eexists])).
Qed.

Ltac one_job :=
  unfold started_one_job; simpl;
  split; [done|]; split; [done|]; split; [done|]; split;
  [ intros ? ?; simplify_eq; unfold consumed, reads_result; simpl;
    rewrite ?bool_decide_eq_false_2 by done; done
  | first [ left; split; [done|]; first [by left | by right]
          | right; split; [done|]; by eexists ] ].

Lemma home_alone_stale md old nx :
  truthy md && hasattr_run_model md = true →
  (∀ h, old = Some h → nx ≠ h) →
  alone md (started_one_job old nx) 16
    (View old false None nx (match old with Some h => [h] | None => [] end) [])
    home.
Proof.
  intros Hmd Hne. unfold home, _submit_model, with_lock; cbn.
  destruct old as [h|]; cbn.
  - specialize (Hne h eq_refl). alone_walk ltac:(one_job).
  - alone_walk ltac:(one_job).
Qed.

(** ** The log, with the end of a job in two steps *)

Lemma worker_finish_two_steps r s :
  worker_finish r s =
  match wrap_ends r s with
  | (Some o, s1) => outcome_stored o s1
  | (None, _) => s
  end.
Proof.
  unfold worker_finish, wrap_ends, outcome_stored.
  destruct (worker s) as [h|] eqn:Hw; [|done].
  destruct (fstate s h) eqn:Hf; try done.
  destruct r; simpl; unfold fstate in *; simpl; by rewrite Hw, Hf.
Qed.


Lemma served_is_between m s : served m s → served_between m s None.
Proof.
  induction 1 as [|p s Hs IH Hp|s Hs IH|r s Hs IH].
  - constructor.
  - by constructor.
  - by constructor.
  - rewrite worker_finish_two_steps.
    destruct (wrap_ends r s) as [[o|] s1] eqn:E; [|done].
    apply between_outcome_stored. by eapply between_wrap_ends.
Qed.

(** ** A lone [GET /] on a stale slot *)

Lemma lone_home_on_stale_slot s sched :
  future_lock s = false → stale s → has_trainable s = true →
  queue_allocated s →
  (16 ≤ count own_step sched → ∃ r, (exec sched (s, [home])).1.2 = [Ret r]) ∧
  ∀ r, (exec sched (s, [home])).1.2 = [Ret r] →
    ∃ v, started_one_job (future s) (length (futures s)) v r ∧
         view_holds (model s) v (exec sched (s, [home])).1.1 ∧
         v_trace v = (exec sched (s, [home])).2.
Proof.
  intros Hl Hst Hm Hq.
  destruct (alone_returns (model s)
              (started_one_job (future s) (length (futures s))) sched 16
              (View (future s) false None (length (futures s))
                 (match future s with Some h => [h] | None => [] end) [])
              home s) as (_ & Hret & Hterm); [| |done].
  - apply home_alone_stale; [done|]. intros h Hh Heq.
    specialize (Hst h Hh). unfold fstate in Hst.
    assert (h < length (futures s)); [|lia].
    apply fget_alloc. intros E. by rewrite E in Hst.
  - repeat split; try done. simpl. destruct (future s) as [h|] eqn:Hf; [|done].
    apply Forall_singleton. by apply Hst.
Qed.

(** ** Properties of the coordinator *)

(** C1.  Take any number of requests, each to one of the handlers and not
    yet started, or a [GET /] that already got [h] from [_submit_model];
    take any interleaving of their steps with the worker's, started while
    the slot holds job [h] and [h] is the only job in flight.  If [h] is
    still not completed at the end, then no request has handed anything to
    the executor: the slot still holds [h], and [h] is still the only job
    in flight.  So while a job is active no call of [_submit_model] starts
    a second one. *)
Theorem no_second_dispatch_while_active ts s h sched :
  Forall (awaits h) ts → future s = Some h →
  (∀ h', in_flight s h' → h' = h) →
  is_done (fstate (exec sched (s, ts)).1.1 h) = false →
  dispatched (exec sched (s, ts)).2 = [] ∧
  future (exec sched (s, ts)).1.1 = Some h ∧
  (∀ h', in_flight (exec sched (s, ts)).1.1 h' → h' = h).
Proof.
  intros Hts Hfut Hone Hnd.
  assert (Forall (quiet h) ts) as Hq.
  { eapply Forall_impl; [done|]. apply awaits_quiet. }
  destruct (exec_quiet h sched (s, ts) Hq Hfut Hnd) as (Hfut' & Hlen & Htr).
  split; [by apply dispatched_reads|]. split; [done|].
  intros h' [Hh' Hnd']. apply Hone. split; [simpl in Hlen; lia|].
  destruct (fstate s h') as [| |o] eqn:E; try done.
  by rewrite (exec_finished h' o sched (s, ts) E) in Hnd'.
Qed.

Lemma no_second_dispatch_while_active_witness :
  dispatched (exec busy_polling (first_job_running, [home; status; home])).2 = [] ∧
  future (exec busy_polling (first_job_running, [home; status; home])).1.1 = Some 0 ∧
  (∀ h', in_flight (exec busy_polling (first_job_running, [home; status; home])).1.1 h' →
         h' = 0).
Proof.
  apply (no_second_dispatch_while_active [home; status; home]
           first_job_running 0 busy_polling).
  - apply List.Forall_cons; [exact (or_introl (or_introl eq_refl))|].
    apply List.Forall_cons; [exact (or_introl (or_intror (or_introl eq_refl)))|].
    apply List.Forall_cons; [exact (or_introl (or_introl eq_refl))|].
    apply List.Forall_nil.
  - reflexivity.
  - intros h' [Hh' _]. simpl in Hh'. lia.
  - vm_compute. reflexivity.
Defined.

(** C2.  [create_app] never returns an application: whatever its argument
    and whatever [import model] would do, line 12 reads the local [app]
    before line 24 binds it and raises [UnboundLocalError]; so does the
    module-level [app = create_app()]. *)
Theorem create_app_raises config import_model :
  create_app config import_model = inl (UnboundLocalError "app") ∧
  module_app import_model = inl (UnboundLocalError "app").
Proof. done. Qed.

(** C3.  The code does not do this.  Line 51 treats a completed future
    like an empty slot: called while the slot holds a completed handle
    [h], with a Trainable there, [_submit_model] hands a new job to the
    executor, stores its handle [h'] in the slot in place of [h] and
    returns [h'].  So a [GET /] made after a job has ended never gets to
    lines 75-79 with that job: served with no other request, whatever the
    worker does meanwhile, it returns after at most sixteen steps without
    having read the outcome of [h], and it has started a new job. *)
Theorem submit_discards_completed_handle s h o :
  future_lock s = false → future s = Some h → fstate s h = FINISHED o →
  has_trainable s = true → queue_allocated s →
  let h' := length (futures s) in
  h' ≠ h ∧
  (call _submit_model s).1.1 = Returns (Some h') ∧
  future (call _submit_model s).1.2 = Some h' ∧
  dispatched (call _submit_model s).2 = [h'] ∧
  ∀ sched,
    (16 ≤ count own_step sched → ∃ r, (exec sched (s, [home])).1.2 = [Ret r]) ∧
    ∀ r, (exec sched (s, [home])).1.2 = [Ret r] →
         consumed h (exec sched (s, [home])).2 = 0 ∧
         dispatched (exec sched (s, [home])).2 = [h'].
Proof.
  intros Hl Hfut Hf Hm Hq h'.
  assert (h < h') as Hlt by (apply fget_alloc; unfold fstate in Hf; congruence).
  assert (stale s) as Hst.
  { intros h0 Hh0. rewrite Hfut in Hh0. simplify_eq. by rewrite Hf. }
  split; [lia|]. rewrite (submit_on_stale_slot s Hl Hst). fold h'.
  rewrite Hm, Hfut. split; [done|]. split; [done|]. split; [done|].
  intros sched.
  destruct (lone_home_on_stale_slot s sched Hl Hst Hm Hq) as [Hterm Hret].
  split; [done|]. intros r Hr.
  destruct (Hret r Hr) as (v & (_ & _ & Hd & Hc & _) & _ & Htr).
  rewrite <- Htr. split; [by apply Hc|done].
Qed.

Lemma submit_discards_completed_handle_witness :
  let s := first_job_completed "ok" in
  1 ≠ 0 ∧
  (call _submit_model s).1.1 = Returns (Some 1) ∧
  future (call _submit_model s).1.2 = Some 1 ∧
  dispatched (call _submit_model s).2 = [1] ∧
  ∀ sched,
    (16 ≤ count own_step sched → ∃ r, (exec sched (s, [home])).1.2 = [Ret r]) ∧
    ∀ r, (exec sched (s, [home])).1.2 = [Ret r] →
         consumed 0 (exec sched (s, [home])).2 = 0 ∧
         dispatched (exec sched (s, [home])).2 = [1].
Proof.
  exact (submit_discards_completed_handle (first_job_completed "ok") 0
           (Returned "ok") eq_refl eq_refl eq_refl eq_refl (List.Forall_nil _)).
Defined.

(** After the first job has ended with "ok", a [GET /] during which its
    own, second job runs and ends with "0.97" shows "0.97"; one during
    which the worker does not move shows "Model started".  Neither shows
    "ok". *)
Example refresh_does_not_show_the_result :
  (exec (job_runs_during_home (Returned "0.97"))
        (first_job_completed "ok", [home])).1.2 = [Ret (Page "0.97")] ∧
  (call home (first_job_completed "ok")).1.1 = Returns (progress_page PENDING).
Proof. vm_compute. by split. Qed.

(** C4, as stated, fails: a job that was submitted and has not started
    is reported as "unknown", not "running". *)
Lemma status_pending_is_running_refuted :
  ¬ (∀ s h, future_lock s = false → future s = Some h → fstate s h = PENDING →
            (call status s).1.1 = Returns (Json (Payload "running" None))).
Proof.
  intros H.
  specialize (H (call home (Flask (Module true))).1.2 0 eq_refl eq_refl eq_refl).
  vm_compute in H. discriminate H.
Qed.

(** C4, amended.  Served with nothing else running, [GET /status] returns
    the payload given by the state of the slot: empty, "idle" and null; a
    running future, "running" and null; a future submitted but not yet
    started, "unknown" and null; a future completed with result [r],
    "done" and [r]; a future completed with an exception of message [m],
    "done" and "error: m". *)
Theorem status_payload_by_state s :
  future_lock s = false →
  ∃ p, (call status s).1.1 = Returns (Json p) ∧
       match future s with
       | None => p = Payload "idle" None
       | Some h =>
           match fstate s h with
           | PENDING => p = Payload "unknown" None
           | RUNNING => p = Payload "running" None
           | FINISHED (Returned r) => p = Payload "done" (Some r)
           | FINISHED (Raised m) => p = Payload "done" (Some ("error: " +:+ m))
           end
       end.
Proof.
  intros Hl. destruct (status_call s Hl) as (p & tr & -> & _ & Hp). by exists p.
Qed.

Lemma status_payload_by_state_witness :
  ∃ p, (call status (first_job_completed "ok")).1.1 = Returns (Json p) ∧
       p = Payload "done" (Some "ok").
Proof. exact (status_payload_by_state (first_job_completed "ok") eq_refl). Defined.

(** C5, as stated, fails: two [GET /] that overlap can both be holding
    the handle of a job when it ends, and then both read its outcome. *)
Lemma result_consumed_once_refuted :
  ¬ (∀ m s ts sched h,
       served m s → Forall (λ p, p = home) ts →
       consumed h (exec sched (s, ts)).2 ≤ 1).
Proof.
  intros H.
  specialize (H (Module true) first_job_running [home; home] both_hold_the_job 0).
  assert (served (Module true) first_job_running) as Hs.
  { apply served_worker_start.
    exact (served_request _ home _ (served_start _) (or_introl eq_refl)). }
  specialize (H Hs (List.Forall_cons _ _ _ eq_refl
                      (List.Forall_cons _ _ _ eq_refl (List.Forall_nil _)))).
  vm_compute in H. lia.
Qed.

(** C5, amended.  When [GET /] finds the future it holds completed, it
    reads the outcome, shows it and leaves the slot empty, the rest of
    [app] as it was.  The completed handle has then left the slot for
    good: whatever requests come afterwards or are under way holding a
    future, and however they interleave, the slot never holds it again
    and no read of the slot gives it to a request again.  Requests that
    start after the clear, however they interleave with each other and
    with the worker, never look at that future and never read its
    outcome.  And the next [_submit_model] (with a Trainable there) hands
    a new future to the executor, stores and returns its handle,
    different from the consumed one. *)
Theorem home_consumes_completed_handle s h o :
  future_lock s = false → fstate s h = FINISHED o →
  let '(r, s1, tr1) := call (home_view (Some h)) s in
  r = Returns (Page (home_output o)) ∧ s1 = set_future None s ∧
  consumed h tr1 = 1 ∧
  (∀ ts sched, Forall in_service ts →
               future (exec sched (s1, ts)).1.1 ≠ Some h ∧
               Forall (λ e, while_retired h (ev_action e) (ev_reply e))
                      (exec sched (s1, ts)).2) ∧
  (∀ ts sched, Forall is_handler ts →
               Forall (λ e, shuns h (ev_action e) = true)
                      (exec sched (s1, ts)).2 ∧
               consumed h (exec sched (s1, ts)).2 = 0) ∧
  (has_trainable s = true →
   let h' := length (futures s) in
   let '(r2, s2, tr2) := call _submit_model s1 in
   h' ≠ h ∧ r2 = Returns (Some h') ∧ dispatched tr2 = [h'] ∧
   future s2 = Some h').
Proof.
  intros Hl Hf. rewrite (home_view_completed s h o Hl Hf).
  assert (h < length (futures s)) as Hlt.
  { apply fget_alloc. unfold fstate in Hf. congruence. }
  split; [done|]. split; [done|]. split.
  { unfold consumed, reads_result. simpl. by rewrite bool_decide_eq_true_2. }
  split; [|split].
  - intros ts sched Hts.
    destruct (retired_forever h ts sched (set_future None s) Hts) as [[? _] ?];
      by try split.
  - intros ts sched Hts.
    destruct (shunned_forever h ts sched (set_future None s) Hts) as [_ Htr];
      [by split|].
    assert (Forall (λ e, shuns h (ev_action e) = true)
              (exec sched (set_future None s, ts)).2) as Hsh.
    { eapply Forall_impl; [done|]. by intros e [? _]. }
    split; [done|]. by apply shunned_not_consumed.
  - intros Hm h'. rewrite submit_on_stale_slot; [|done|done].
    unfold has_trainable in *; simpl. rewrite Hm.
    repeat split; try done. subst h'. lia.
Qed.

Lemma home_consumes_completed_handle_witness :
  let s := first_job_completed "ok" in
  let '(r, s1, tr1) := call (home_view (Some 0)) s in
  r = Returns (Page "ok") ∧ s1 = set_future None s ∧
  consumed 0 tr1 = 1 ∧
  (∀ ts sched, Forall in_service ts →
               future (exec sched (s1, ts)).1.1 ≠ Some 0 ∧
               Forall (λ e, while_retired 0 (ev_action e) (ev_reply e))
                      (exec sched (s1, ts)).2) ∧
  (∀ ts sched, Forall is_handler ts →
               Forall (λ e, shuns 0 (ev_action e) = true)
                      (exec sched (s1, ts)).2 ∧
               consumed 0 (exec sched (s1, ts)).2 = 0) ∧
  (has_trainable s = true →
   let '(r2, s2, tr2) := call _submit_model s1 in
   1 ≠ 0 ∧ r2 = Returns (Some 1) ∧ dispatched tr2 = [1] ∧
   future s2 = Some 1).
Proof.
  exact (home_consumes_completed_handle (first_job_completed "ok") 0
           (Returned "ok") eq_refl eq_refl).
Defined.

(** The slot is what is consumed once: two [GET /] that already hold the
    handle of the job when it ends both show its result, and both set the
    slot to [None]. *)
Example overlapping_requests_both_report :
  (exec both_hold_the_job (first_job_running, [home; home])).1 =
  (set_future None (first_job_completed "a"), [Ret (Page "a"); Ret (Page "a")]).
Proof. vm_compute. reflexivity. Qed.

(** C6.  The code does this only in part.  When the Trainable raises an
    exception with message [m], the worker records it in the job's future
    as an error outcome, logs the failure and is idle again; from then on
    [GET /status] returns "done" with "error: m", as a normal return.
    [GET /] returns the page "Model error: m" when it already holds the
    future, also when the job fails during the request.  But a [GET /]
    made after the failure does not: line 51 treats the failed future
    like an empty slot, so, served with no other request and whatever the
    worker does meanwhile, it returns without having read the outcome of
    the failed job, and it has started a new job; if the worker does not
    move during it, it shows "Model started". *)
Theorem trainable_error_reaches_holders_only s h m :
  future_lock s = false → future s = Some h →
  worker s = Some h → fstate s h = RUNNING →
  has_trainable s = true → queue_allocated s →
  let s' := worker_finish (Raised m) s in
  (fstate s' h = FINISHED (Raised m) ∧ worker s' = None ∧
   log s' = log s ++ [(ERROR, "Model run failed")]) ∧
  (call status s').1.1 =
    Returns (Json (Payload "done" (Some ("error: " +:+ m)))) ∧
  (call (home_view (Some h)) s').1.1 = Returns (Page ("Model error: " +:+ m)) ∧
  (exec (job_ends_during_home (Raised m)) (s, [home])).1.2 =
    [Ret (Page ("Model error: " +:+ m))] ∧
  (call home s').1.1 = Returns (progress_page PENDING) ∧
  ∀ sched,
    (16 ≤ count own_step sched → ∃ r, (exec sched (s', [home])).1.2 = [Ret r]) ∧
    ∀ r, (exec sched (s', [home])).1.2 = [Ret r] →
         consumed h (exec sched (s', [home])).2 = 0 ∧
         dispatched (exec sched (s', [home])).2 = [length (futures s)].
Proof.
  intros Hl Hfut Hw Hf Hm Hq s'.
  assert (s' = set_worker None
                 (set_futures (<[h := FINISHED (Raised m)]> (futures s))
                    (add_log ERROR "Model run failed" s))) as Hs'.
  { subst s'. unfold worker_finish. by rewrite Hw, Hf. }
  assert (h < length (futures s)) as Hlt.
  { apply fget_alloc. unfold fstate in Hf. congruence. }
  assert (fstate s' h = FINISHED (Raised m)) as Hf'.
  { rewrite Hs'. unfold fstate; simpl. by apply fget_insert_eq. }
  assert (future_lock s' = false) as Hl' by (by rewrite Hs').
  assert (future s' = Some h) as Hfut' by (by rewrite Hs').
  assert (has_trainable s' = true) as Hm' by (by rewrite Hs').
  assert (length (futures s') = length (futures s)) as Hlen.
  { rewrite Hs'. simpl. by rewrite length_insert. }
  assert (stale s') as Hst'.
  { intros h0 Hh0. rewrite Hfut' in Hh0. simplify_eq. by rewrite Hf'. }
  assert (queue_allocated s') as Hq'.
  { rewrite Hs'. unfold queue_allocated in *; simpl. by rewrite length_insert. }
  split; [|split; [|split; [|split; [|split]]]].
  - split; [done|]. by rewrite Hs'.
  - destruct (status_call s' Hl') as (p & tr & -> & _ & Hp).
    rewrite Hfut', Hf' in Hp. by subst p.
  - by rewrite (home_view_completed s' h _ Hl' Hf').
  - by rewrite (home_when_job_ends s h (Raised m)).
  - destruct (home_on_stale_slot s' Hl' Hst') as [-> _]. by rewrite Hm'.
  - intros sched.
    destruct (lone_home_on_stale_slot s' sched Hl' Hst' Hm' Hq') as [Hterm Hret].
    split; [done|]. intros r Hr.
    destruct (Hret r Hr) as (v & (_ & _ & Hd & Hc & _) & _ & Htr).
    rewrite <- Htr, <- Hlen. split; [by apply Hc|done].
Qed.

Lemma trainable_error_reaches_holders_only_witness :
  let s' := worker_finish (Raised "bad data") first_job_running in
  (fstate s' 0 = FINISHED (Raised "bad data") ∧ worker s' = None ∧
   log s' = log first_job_running ++ [(ERROR, "Model run failed")]) ∧
  (call status s').1.1 =
    Returns (Json (Payload "done" (Some "error: bad data"))) ∧
  (call (home_view (Some 0)) s').1.1 = Returns (Page "Model error: bad data") ∧
  (exec (job_ends_during_home (Raised "bad data")) (first_job_running, [home])).1.2 =
    [Ret (Page "Model error: bad data")] ∧
  (call home s').1.1 = Returns (progress_page PENDING) ∧
  ∀ sched,
    (16 ≤ count own_step sched → ∃ r, (exec sched (s', [home])).1.2 = [Ret r]) ∧
    ∀ r, (exec sched (s', [home])).1.2 = [Ret r] →
         consumed 0 (exec sched (s', [home])).2 = 0 ∧
         dispatched (exec sched (s', [home])).2 = [1].
Proof.
  exact (trainable_error_reaches_holders_only first_job_running 0 "bad data"
           eq_refl eq_refl eq_refl eq_refl eq_refl (List.Forall_nil _)).
Defined.

(** C7.  With no Trainable on [app.model] (the import failed, or the module
    has no [run_model]), in every state the server reaches by serving its
    requests one after the other, [_submit_model] returns at once the
    handle of a new future that is already completed with the result
    "No model available", and hands nothing to the executor.  Nor do
    requests that overlap, however they interleave: the executor is never
    given a job and stays empty and idle. *)
Theorem no_model_completed_handle m s :
  served m s → truthy m && hasattr_run_model m = false →
  (let h' := length (futures s) in
   let '(r, s', tr) := call _submit_model s in
   r = Returns (Some h') ∧ future s' = Some h' ∧
   fstate s' h' = FINISHED (Returned "No model available") ∧
   dispatched tr = [] ∧ queue s' = [] ∧ worker s' = None) ∧
  (∀ ts sched, Forall is_handler ts →
               executor_unused (exec sched (s, ts)).1.1 ∧
               dispatched (exec sched (s, ts)).2 = []).
Proof.
  intros Hs Hm.
  destruct (served_without_model m s Hs Hm) as (Hl & Ht & Hq & Hw & Hf).
  split; [|intros ts sched Hts; by apply executor_unused_exec].
  intros h'. rewrite submit_on_stale_slot; [|done|].
  2: { intros h Hh. by rewrite (Hf h Hh). }
  rewrite Ht. unfold fstate; simpl. rewrite fget_push_new.
  repeat split; try done. by destruct (future s).
Qed.

Lemma no_model_completed_handle_witness :
  let s := (call home (Flask (Module false))).1.2 in
  (let '(r, s', tr) := call _submit_model s in
   r = Returns (Some 1) ∧ future s' = Some 1 ∧
   fstate s' 1 = FINISHED (Returned "No model available") ∧
   dispatched tr = [] ∧ queue s' = [] ∧ worker s' = None) ∧
  (∀ ts sched, Forall is_handler ts →
               executor_unused (exec sched (s, ts)).1.1 ∧
               dispatched (exec sched (s, ts)).2 = []).
Proof.
  exact (no_model_completed_handle (Module false)
           (call home (Flask (Module false))).1.2
           (served_request _ home _ (served_start _) (or_introl eq_refl))
           eq_refl).
Defined.

(** C8.  [GET /status] changes nothing.  [n] calls in a row all return what
    the first returns and leave [app], the slot included, exactly as it
    was; none of the operations they perform writes the slot, creates a
    future or submits work.  The same holds of [n] calls that overlap,
    with the worker running: under every interleaving the slot stays as it
    was and the calls only read. *)
Theorem status_polling_changes_nothing n s :
  future_lock s = false →
  (let '(rs, s', tr) := serve status n s in
   rs = replicate n (call status s).1.1 ∧ s' = s ∧
   Forall (λ e, writes (ev_action e) = false) tr) ∧
  (∀ sched,
     future (exec sched (s, replicate n status)).1.1 = future s ∧
     Forall (λ e, writes (ev_action e) = false)
            (exec sched (s, replicate n status)).2).
Proof.
  intros Hl. split; [|intros sched; apply pollers_keep_slot].
  destruct (status_call s Hl) as (p & tr & Hc & Hw & _).
  rewrite Hc; cbn [fst snd]. induction n as [|n IH]; cbn [serve]; [done|].
  rewrite Hc. destruct (serve status n s) as [[rs s'] tr'].
  destruct IH as (-> & -> & Htr). split; [done|]. split; [done|].
  by apply Forall_app.
Qed.

Lemma status_polling_changes_nothing_witness :
  let s := first_job_completed "ok" in
  (let '(rs, s', tr) := serve status 3 s in
   rs = replicate 3 (call status s).1.1 ∧ s' = s ∧
   Forall (λ e, writes (ev_action e) = false) tr) ∧
  (∀ sched,
     future (exec sched (s, replicate 3 status)).1.1 = future s ∧
     Forall (λ e, writes (ev_action e) = false)
            (exec sched (s, replicate 3 status)).2).
Proof.
  exact (status_polling_changes_nothing 3 (first_job_completed "ok") eq_refl).
Defined.

(** C9.  A completed future keeps its outcome: whatever programs the
    threads run and however their steps and the worker's interleave, a
    future that is completed with outcome [o] is completed with [o]
    afterwards, and reading it ([result()], [done()]) gives [o] and
    [True]. *)
Theorem completed_outcome_is_immutable sched (c : config) h o :
  fstate c.1 h = FINISHED o →
  let s' := (exec sched c).1.1 in
  fstate s' h = FINISHED o ∧
  perform (GetResult h) s' = Yields o s' ∧
  perform (IsDone h) s' = Yields true s'.
Proof.
  intros Hf s'. pose proof (exec_finished h o sched c Hf) as Hf'.
  fold s' in Hf'. simpl. by rewrite Hf'.
Qed.

Lemma completed_outcome_is_immutable_witness :
  let s' := (exec (second_submits ++ first_clears ++ third_submits)
               (exec first_inspects three_homes).1).1.1 in
  fstate s' 0 = FINISHED (Returned "a") ∧
  perform (GetResult 0) s' = Yields (Returned "a") s' ∧
  perform (IsDone 0) s' = Yields true s'.
Proof.
  exact (completed_outcome_is_immutable
           (second_submits ++ first_clears ++ third_submits)
           (exec first_inspects three_homes).1 0 (Returned "a") eq_refl).
Defined.



(** Such an interleaving, from the start of the server: request 0 finds
    job 0 completed; request 1 then starts job 1 and stores its handle;
    request 0 empties the slot; request 2 finds the slot empty and starts
    job 2 while job 1 has not even begun. *)
Example overlapping_requests_orphan_a_job :
  let s1 := (exec first_inspects three_homes).1.1 in
  let s2 := (exec (first_inspects ++ second_submits) three_homes).1.1 in
  let s3 := (exec (first_inspects ++ second_submits ++ first_clears) three_homes).1.1 in
  let s4 := (exec (first_inspects ++ second_submits ++ first_clears ++ third_submits)
               three_homes).1.1 in
  (future s1 = Some 0 ∧ fstate s1 0 = FINISHED (Returned "a")) ∧
  (future s2 = Some 1 ∧ fstate s2 1 = PENDING ∧ queue s2 = [1]) ∧
  (future s3 = None ∧ fstate s3 1 = PENDING ∧ queue s3 = [1]) ∧
  (future s4 = Some 2 ∧ fstate s4 1 = PENDING ∧ fstate s4 2 = PENDING ∧
   queue s4 = [1; 2]).
Proof. vm_compute. repeat split. Qed.

(** ** Further properties of the handlers *)

(** X1.  While the job in the slot has not completed, [GET /] served alone
    is a pure poll: any number of them in a row all show the same
    progress page ("running" once the worker has taken the job, "started"
    before), leave [app] exactly as it was and hand nothing to the
    executor. *)
Theorem home_polls_active_job n s h :
  future_lock s = false → future s = Some h → is_done (fstate s h) = false →
  (serve home n s).1 = (replicate n (Returns (progress_page (fstate s h))), s) ∧
  dispatched (serve home n s).2 = [].
Proof.
  intros Hl Hfut Hnd.
  destruct (home_on_active_slot s h Hl Hfut Hnd) as [Hc Hd].
  induction n as [|n [IH1 IH2]]; [done|]. cbn [serve].
  destruct (call home s) as [[r s1] tr1]. simpl in Hc, Hd. simplify_eq.
  destruct (serve home n s) as [[rs s2] tr2]. simpl in *. simplify_eq.
  split; [done|]. unfold dispatched in *. by rewrite omap_app, Hd, IH2.
Qed.

Lemma home_polls_active_job_witness :
  (serve home 3 first_job_running).1 =
    (replicate 3 (Returns (progress_page RUNNING)), first_job_running) ∧
  dispatched (serve home 3 first_job_running).2 = [].
Proof.
  exact (home_polls_active_job 3 first_job_running 0 eq_refl eq_refl eq_refl).
Defined.

(** X2.  Called with the lock free and run with nothing else moving,
    [_submit_model] always returns a handle, never [None]: the handle the
    slot holds when it returns, with the lock released. *)
Theorem submit_returns_slot_handle s :
  future_lock s = false →
  let '(r, s', _) := call _submit_model s in
  ∃ h, r = Returns (Some h) ∧ future s' = Some h ∧ future_lock s' = false.
Proof.
  intros Hl. destruct (stale_or_active s) as [Hst|(h & Hfut & Hnd)].
  - rewrite (submit_on_stale_slot s Hl Hst).
    destruct (has_trainable s); eexists; by repeat split.
  - rewrite (submit_on_active_slot s h Hl Hfut Hnd). by exists h.
Qed.

Lemma submit_returns_slot_handle_witness :
  let '(r, s', _) := call _submit_model (first_job_completed "ok") in
  ∃ h, r = Returns (Some h) ∧ future s' = Some h ∧ future_lock s' = false.
Proof. exact (submit_returns_slot_handle (first_job_completed "ok") eq_refl). Defined.

(** X3.  A [GET /] that overlaps no other request never raises, whatever
    the worker does during it, and it is never made to wait: once it has
    been given sixteen steps it has returned.  What it returns is a page,
    and the lock is then free.  The page can be the outcome of the job the
    request itself has started. *)
Theorem lone_home_returns_a_page s sched :
  future_lock s = false → queue_allocated s →
  (∀ e, (exec sched (s, [home])).1.2 ≠ [Raise e]) ∧
  (∀ r, (exec sched (s, [home])).1.2 = [Ret r] →
        future_lock (exec sched (s, [home])).1.1 = false ∧ ∃ out, r = Page out) ∧
  (16 ≤ count own_step sched → ∃ r, (exec sched (s, [home])).1.2 = [Ret r]).
Proof.
  intros Hl Hq.
  destruct (alone_returns (model s) returns_a_page sched 16
              (View (future s) false None (length (futures s)) [] []) home s)
    as (Hraise & Hret & Hterm).
  { apply home_alone. }
  { by repeat split. }
  split; [done|]. split; [|done].
  intros r Hr. destruct (Hret r Hr) as (v' & [Hl' Hout] & Hv & _).
  destruct Hv as (_ & _ & Hlock & _). by rewrite Hlock.
Qed.

Lemma lone_home_returns_a_page_witness :
  ∃ r, (exec (job_runs_during_home (Returned "0.97"))
          (Flask (Module true), [home])).1.2 = [Ret r] ∧
       future_lock (exec (job_runs_during_home (Returned "0.97"))
                      (Flask (Module true), [home])).1.1 = false ∧
       ∃ out, r = Page out.
Proof.
  destruct (lone_home_returns_a_page (Flask (Module true))
              (job_runs_during_home (Returned "0.97")) eq_refl
              (List.Forall_nil _)) as (_ & Hret & Hterm).
  destruct (Hterm (le_n 16)) as [r Hr].
  exists r. split; [exact Hr|]. exact (Hret r Hr).
Defined.

(** The job of a [GET /] runs and ends during the request: the page is
    its outcome. *)
Example home_shows_its_own_job :
  (exec (job_runs_during_home (Returned "0.97")) (Flask (Module true), [home])).1.2 =
    [Ret (Page "0.97")] ∧
  (exec (job_runs_during_home (Raised "bad data")) (Flask (Module true), [home])).1.2 =
    [Ret (Page "Model error: bad data")] ∧
  count own_step (job_runs_during_home (Returned "0.97")) = 16.
Proof. vm_compute. repeat split. Qed.



(** X5.  Without a Trainable, every [GET /] served in its turn shows
    "No model available", leaves the slot empty and the executor unused,
    and leaves behind one more future, completed with that text. *)
Theorem home_without_model m s :
  served m s → truthy m && hasattr_run_model m = false →
  (call home s).1 =
    (Returns (Page "No model available"),
     mkApp (model s) None false
           (futures s ++ [FINISHED (Returned "No model available")]) [] None
           (log s)) ∧
  dispatched (call home s).2 = [].
Proof.
  intros Hs Hm.
  destruct (served_without_model m s Hs Hm) as (Hl & Ht & Hq & Hw & Hf).
  assert (stale s) as Hst by (intros h Hh; by rewrite (Hf h Hh)).
  destruct (home_on_stale_slot s Hl Hst) as [Hc Hd].
  rewrite Ht in Hc, Hd. by rewrite Hc, Hd, Hq, Hw.
Qed.

Lemma home_without_model_witness :
  let s := (call home (Flask NoModule)).1.2 in
  (call home s).1 =
    (Returns (Page "No model available"),
     mkApp (model s) None false
           (futures s ++ [FINISHED (Returned "No model available")]) [] None
           (log s)) ∧
  dispatched (call home s).2 = [].
Proof.
  exact (home_without_model NoModule (call home (Flask NoModule)).1.2
           (served_request _ home _ (served_start _) (or_introl eq_refl))
           eq_refl).
Defined.

(** X6.  With requests served one after the other, never more than one job
    is in flight, and the job in flight is the one the slot holds. *)
Theorem served_one_job_in_flight m s :
  served m s →
  (∀ h, in_flight s h → future s = Some h) ∧
  (∀ h1 h2, in_flight s h1 → in_flight s h2 → h1 = h2).
Proof.
  intros Hs. destruct (served_job_in_slot m s Hs) as [_ H].
  split; [done|]. intros h1 h2 H1%H H2%H. congruence.
Qed.

Lemma served_one_job_in_flight_witness :
  (∀ h, in_flight first_job_running h → future first_job_running = Some h) ∧
  (∀ h1 h2, in_flight first_job_running h1 → in_flight first_job_running h2 →
            h1 = h2).
Proof.
  exact (served_one_job_in_flight (Module true) first_job_running
           (served_worker_start _ _
              (served_request _ home _ (served_start _) (or_introl eq_refl)))).
Defined.

(** X7.  [_submit_model] reads the slot again on line 68, after it has
    released the lock.  So two [GET /] on a running job can go wrong: the
    second stops between lines 67 and 68, the job ends, the first shows
    the outcome and empties the slot, and the second then gets [None] from
    [_submit_model] and raises an [AttributeError] on line 73. *)
Theorem home_raises_on_cleared_slot s h o :
  future_lock s = false → future s = Some h → fstate s h = RUNNING →
  worker s = Some h →
  (exec (read_after_clear o) (s, [home; home])).1 =
  (set_future None (worker_finish o s),
   [Ret (Page (home_output o));
    Raise none_has_no_running]).
Proof.
  destruct s as [m f l fs q w lg]; unfold fstate; simpl. intros -> -> Hf ->.
  assert (h < length fs) as Hh by (apply fget_alloc; congruence).
  unfold read_after_clear, worker_finish, home_output.
  destruct o as [r|e]; run; done.
Qed.

Lemma home_raises_on_cleared_slot_witness :
  (exec (read_after_clear (Returned "ok")) (first_job_running, [home; home])).1 =
  (set_future None (worker_finish (Returned "ok") first_job_running),
   [Ret (Page (home_output (Returned "ok"))); Raise none_has_no_running]).
Proof.
  exact (home_raises_on_cleared_slot first_job_running 0 (Returned "ok")
           eq_refl eq_refl eq_refl eq_refl).
Defined.

(** X8.  Whatever requests are served and however their steps and the
    worker's interleave, once every request has returned or raised the
    lock is free; and a request that raises raises the [AttributeError]
    of line 73 on a [None] future, nothing else: no handler fails inside
    the lock, on a completed future's [set_result], or on [result()]. *)
Theorem handlers_lock_discipline ts sched s :
  Forall is_handler ts → future_lock s = false → queue_allocated s →
  (Forall finished (exec sched (s, ts)).1.2 →
   future_lock (exec sched (s, ts)).1.1 = false) ∧
  Forall (λ p, ∀ e, p = Raise e → e = none_has_no_running)
         (exec sched (s, ts)).1.2.
Proof.
  intros Hts Hl Hq.
  destruct (disciplined_exec sched (s, ts) (replicate (length ts) Outside))
    as (ms & Hd & [_ Hinv]).
  { simpl. apply Forall2_lookup. intros i.
    destruct (ts !! i) as [p|] eqn:Hp.
    - rewrite lookup_replicate_2 by (by eapply lookup_lt_Some). constructor.
      apply handler_disciplined. by eapply Forall_lookup_1.
    - rewrite lookup_ge_None_2; [constructor|].
      rewrite length_replicate. by apply lookup_ge_None. }
  { split; [done|]. simpl. rewrite Hl. by apply Forall_replicate. }
  split.
  - intros Hfin. destruct (future_lock (exec sched (s, ts)).1.1); [|done].
    destruct Hinv as (i & v & own & Hi & _).
    destruct (Forall2_lookup_l _ _ _ _ _ Hd Hi) as (p & Hp & Hdp).
    pose proof (Forall_lookup_1 _ _ _ _ Hfin Hp) as Hf.
    by inversion Hdp; subst.
  - apply Forall_lookup_2. intros i p Hp e ->.
    destruct (Forall2_lookup_r _ _ _ _ _ Hd Hp) as (m & _ & Hdp).
    by inversion Hdp.
Qed.

Lemma handlers_lock_discipline_witness :
  (exec (read_after_clear (Returned "ok")) (first_job_running, [home; home])).1.2 =
    [Ret (Page "ok"); Raise none_has_no_running] ∧
  future_lock (exec (read_after_clear (Returned "ok"))
                 (first_job_running, [home; home])).1.1 = false ∧
  Forall (λ p, ∀ e, p = Raise e → e = none_has_no_running)
         (exec (read_after_clear (Returned "ok"))
            (first_job_running, [home; home])).1.2.
Proof.
  destruct (handlers_lock_discipline [home; home]
              (read_after_clear (Returned "ok")) first_job_running) as [Hfree Honly].
  - apply List.Forall_cons; [exact (or_introl eq_refl)|].
    apply List.Forall_cons; [exact (or_introl eq_refl)|].
    apply List.Forall_nil.
  - reflexivity.
  - apply List.Forall_nil.
  - split; [vm_compute; reflexivity|]. split; [|exact Honly].
    apply Hfree. vm_compute.
    apply List.Forall_cons; [exact I|].
    apply List.Forall_cons; [exact I|]. apply List.Forall_nil.
Defined.

(** X9.  A job seen through [GET /status].  Take a [GET /] on a slot that
    is empty or holds a completed job, with a Trainable there and the
    executor idle, during which the worker does not move: it leaves a
    pending job in the slot.  [status], served with the lock free, then
    answers "unknown"; once the worker has taken the job, "running"; and
    once the job has ended, "done" with the result, or with "error: " and
    the error text. *)
Theorem job_seen_through_status s o :
  future_lock s = false → stale s → has_trainable s = true →
  worker s = None → queue s = [] →
  let s1 := (call home s).1.2 in
  let s2 := worker_start s1 in
  let s3 := worker_finish o s2 in
  (call status s1).1.1 = Returns (Json (Payload "unknown" None)) ∧
  (call status s2).1.1 = Returns (Json (Payload "running" None)) ∧
  (call status s3).1.1 = Returns (Json (Payload "done" (Some (status_result o)))).
Proof.
  intros Hl Hst Hm Hw Hq s1 s2 s3.
  destruct (home_on_stale_slot s Hl Hst) as [Hc _].
  rewrite Hm, Hq, Hw in Hc.
  destruct (job_states (model s) (futures s)
              (log s ++ [(INFO, "Submitting background model run")]) o)
    as [E2 [lg' E3]].
  assert (s1 = mkApp (model s) (Some (length (futures s))) false
                 (futures s ++ [PENDING]) [length (futures s)] None
                 (log s ++ [(INFO, "Submitting background model run")])) as E1.
  { unfold s1. by rewrite Hc. }
  clearbody s1. subst s1. subst s2 s3. rewrite E3, E2. clear E2 E3 Hc.
  split; [|split].
  - rewrite (status_of_slot _ (length (futures s))) by done.
    unfold fstate. simpl. by rewrite fget_push_new.
  - rewrite (status_of_slot _ (length (futures s))) by done.
    unfold fstate. simpl. by rewrite fget_push_new.
  - rewrite (status_of_slot _ (length (futures s))) by done.
    unfold fstate. simpl. by rewrite fget_push_new.
Qed.

Lemma job_seen_through_status_witness :
  let s1 := (call home (Flask (Module true))).1.2 in
  let s2 := worker_start s1 in
  let s3 := worker_finish (Raised "no data") s2 in
  (call status s1).1.1 = Returns (Json (Payload "unknown" None)) ∧
  (call status s2).1.1 = Returns (Json (Payload "running" None)) ∧
  (call status s3).1.1 =
    Returns (Json (Payload "done" (Some (status_result (Raised "no data"))))).
Proof.
  refine (job_seen_through_status (Flask (Module true)) (Raised "no data")
            eq_refl _ eq_refl eq_refl eq_refl).
  intros h Hh. discriminate Hh.
Defined.


